(** * noteWall: the NoteGenerator class

    A shallow embedding of [class NoteGenerator] (the quote aggregator and
    the placement engine of the note wall) and the properties of its
    operations.

    Conventions of the embedding:
    - a JavaScript string is the list of its UTF-16 code units, so that
      [length] is the [.length] of the source;
    - a value that may be [undefined] or [null] is an [option];
    - [Math.random()] is an argument: a rational [r] with [0 <= r < 1] where
      it selects an index, a real where it selects a coordinate;
    - JavaScript numbers are taken as exact: integers for counters, reals
      for pixel coordinates ([Math.sqrt], [Math.sin], [Math.cos] and
      [Math.PI] are the functions and the constant of the real numbers);
    - the generator object is a record threaded through every method. *)

From Stdlib Require Import ZArith QArith Qround Reals Lra Lia.
From stdpp Require Import base decidable option list gmap strings.

(** ** JavaScript values *)

Module Js.

Definition jsstring := list N.

(** A non-empty string is truthy, the empty string is falsy. *)
Definition truthy (s : jsstring) : bool :=
  match s with
  | [] => false
  | _ :: _ => true
  end.

(** What a function call ends with: a value, or a thrown exception. *)
Inductive completion (A : Type) : Type :=
| Return (a : A)
| Throw.
Arguments Return {A} a.
Arguments Throw {A}.

(** [l[i]] for a number [i]: [undefined] outside the array. *)
Definition index {A : Type} (l : list A) (i : Z) : option A :=
  if (0 <=? i)%Z then l !! Z.to_nat i else None.

(** [Math.floor(r * n)] for [r] the value of [Math.random()]. *)
Definition floorRandom (r : Q) (n : nat) : Z :=
  Qfloor (r * inject_Z (Z.of_nat n)).

(** [l.findIndex(p)]: the first position where [p] holds, [None] for -1. *)
Fixpoint findIndex {A : Type} (p : A -> bool) (l : list A) : option nat :=
  match l with
  | [] => None
  | a :: l' => if p a then Some 0%nat else S <$> findIndex p l'
  end.

(** [l.splice(i, 1)]. *)
Definition splice1 {A : Type} (i : nat) (l : list A) : list A :=
  take i l ++ drop (S i) l.

End Js.
Export Js.

(** ** Remote replies *)

(** The outcome of [fetch] followed by [response.json()]: the parsed object,
    or a failure (network error, abort after 2 seconds, malformed body). *)
Inductive reply (A : Type) : Type :=
| Failed
| Json (data : A).
Arguments Failed {A}.
Arguments Json {A} data.

Module Hitokoto.
Record data := mk { hitokoto : jsstring; from : option jsstring }.
End Hitokoto.

Module Jinrishici.
Record data := mk { content : jsstring; author : option jsstring }.
End Jinrishici.

(** The template prefix of the attribution line: a line feed, two em dashes
    (U+2014) and a space. *)
Definition attributionPrefix : jsstring := [10; 8212; 8212; 32]%N.

(** The placeholder the hitokoto source uses for an unknown origin: the two
    code units U+7F51 U+7EDC. *)
Definition placeholder : jsstring := [32593; 32476]%N.

Definition fetchHitokoto (rsp : reply Hitokoto.data) : completion jsstring :=
  match rsp with
  | Failed => Throw
  | Json data =>
      let text := Hitokoto.hitokoto data in
      match Hitokoto.from data with
      | Some from =>
          if truthy from && negb (bool_decide (from = placeholder))
             && (length from <? 15)%nat
          then Return (text ++ attributionPrefix ++ from)
          else Return text
      | None => Return text
      end
  end.

Definition fetchJinrishici (rsp : reply Jinrishici.data) : completion jsstring :=
  match rsp with
  | Failed => Throw
  | Json data =>
      let text := Jinrishici.content data in
      match Jinrishici.author data with
      | Some author =>
          if truthy author && (length author <? 10)%nat
          then Return (text ++ attributionPrefix ++ author)
          else Return text
      | None => Return text
      end
  end.

(** ** The generator object *)

(** A DOM element is known by its identity only. *)
Definition Elem := nat.

Module ApiSource.
Record t := mk { name : string; url : option string; enabled : bool }.
End ApiSource.

Module Note.
(** One entry of [this.notes]. *)
Record t := mk { x : R; y : R; element : Elem }.
End Note.

Module Canvas.
(** The canvas element: the size [getBoundingClientRect()] reports and
    its child nodes. *)
Record t := mk { width : R; height : R; children : list Elem }.
End Canvas.

Record NoteGenerator := mkGenerator {
  messages : list jsstring;
  usedMessages : gset jsstring;
  noteCount : Z;
  canvas : option Canvas.t;
  notes : list Note.t;
  hitokotoCache : list jsstring;
  usedApiTexts : gset jsstring;
  apiSources : list ApiSource.t;
  currentApiIndex : nat;
  (** Refills issued by [getRandomMessage] whose [then] callback has not run
      yet, each with the outcome of its [fetchFromAPIs] promise. *)
  pendingRefills : list (completion (option jsstring))
}.

Definition colors : list string :=
  ["pink"; "green"; "yellow"; "blue"; "purple"; "orange"]%string.

(** The object the constructor builds. *)
Definition constructor : NoteGenerator :=
  {| messages := [];
     usedMessages := ∅;
     noteCount := 0;
     canvas := None;
     notes := [];
     hitokotoCache := [];
     usedApiTexts := ∅;
     apiSources :=
       [ ApiSource.mk "hitokoto"
           (Some "https://v1.hitokoto.cn/?c=a&c=b&c=d&c=h&c=i&c=k"%string) true;
         ApiSource.mk "jinrishici"
           (Some "https://v1.jinrishici.com/all.json"%string) true;
         ApiSource.mk "local" None true ];
     currentApiIndex := 0;
     pendingRefills := [] |}.

(** Field assignments. *)
Definition set_usedApiTexts (v : gset jsstring) (g : NoteGenerator) :=
  mkGenerator (messages g) (usedMessages g) (noteCount g) (canvas g) (notes g)
    (hitokotoCache g) v (apiSources g) (currentApiIndex g) (pendingRefills g).

Definition set_currentApiIndex (v : nat) (g : NoteGenerator) :=
  mkGenerator (messages g) (usedMessages g) (noteCount g) (canvas g) (notes g)
    (hitokotoCache g) (usedApiTexts g) (apiSources g) v (pendingRefills g).

Definition set_hitokotoCache (v : list jsstring) (g : NoteGenerator) :=
  mkGenerator (messages g) (usedMessages g) (noteCount g) (canvas g) (notes g)
    v (usedApiTexts g) (apiSources g) (currentApiIndex g) (pendingRefills g).

Definition set_pendingRefills (v : list (completion (option jsstring)))
    (g : NoteGenerator) :=
  mkGenerator (messages g) (usedMessages g) (noteCount g) (canvas g) (notes g)
    (hitokotoCache g) (usedApiTexts g) (apiSources g) (currentApiIndex g) v.

Definition set_notes (v : list Note.t) (g : NoteGenerator) :=
  mkGenerator (messages g) (usedMessages g) (noteCount g) (canvas g) v
    (hitokotoCache g) (usedApiTexts g) (apiSources g) (currentApiIndex g)
    (pendingRefills g).

Definition set_noteCount (v : Z) (g : NoteGenerator) :=
  mkGenerator (messages g) (usedMessages g) v (canvas g) (notes g)
    (hitokotoCache g) (usedApiTexts g) (apiSources g) (currentApiIndex g)
    (pendingRefills g).

Definition set_canvas (v : option Canvas.t) (g : NoteGenerator) :=
  mkGenerator (messages g) (usedMessages g) (noteCount g) v (notes g)
    (hitokotoCache g) (usedApiTexts g) (apiSources g) (currentApiIndex g)
    (pendingRefills g).

Definition set_usedMessages (v : gset jsstring) (g : NoteGenerator) :=
  mkGenerator (messages g) v (noteCount g) (canvas g) (notes g)
    (hitokotoCache g) (usedApiTexts g) (apiSources g) (currentApiIndex g)
    (pendingRefills g).

(** ** The quote aggregator *)

(** What one call meets outside the object: the replies of the two remote
    endpoints and the value of [Math.random()]. *)
Record Env := mkEnv {
  hitokotoReply : reply Hitokoto.data;
  jinrishiciReply : reply Jinrishici.data;
  random : Q
}.

Definition getLocalMessage (r : Q) (g : NoteGenerator)
    : option jsstring * NoteGenerator :=
  let availableMessages :=
    filter (fun msg => msg ∉ usedApiTexts g) (messages g) in
  if (length availableMessages =? 0)%nat then
    (index (messages g) (floorRandom r (length (messages g))),
     set_usedApiTexts ∅ g)
  else
    (index availableMessages (floorRandom r (length availableMessages)), g).

(** The body of the [try] block for one enabled source: the text it yields
    ([null] for a name that is none of the three), or the exception. *)
Definition sourceText (env : Env) (source : ApiSource.t) (g : NoteGenerator)
    : completion (option jsstring) * NoteGenerator :=
  if bool_decide (ApiSource.name source = "hitokoto"%string) then
    (match fetchHitokoto (hitokotoReply env) with
     | Return t => Return (Some t)
     | Throw => Throw
     end, g)
  else if bool_decide (ApiSource.name source = "jinrishici"%string) then
    (match fetchJinrishici (jinrishiciReply env) with
     | Return t => Return (Some t)
     | Throw => Throw
     end, g)
  else if bool_decide (ApiSource.name source = "local"%string) then
    let '(text, g') := getLocalMessage (random env) g in (Return text, g')
  else (Return None, g).

(** The duplicate check that follows: an accepted text is recorded. *)
Definition accept (text : option jsstring) (g : NoteGenerator)
    : option (jsstring * NoteGenerator) :=
  match text with
  | Some t =>
      if truthy t && negb (bool_decide (t ∈ usedApiTexts g))
      then Some (t, set_usedApiTexts ({[ t ]} ∪ usedApiTexts g) g)
      else None
  | None => None
  end.

(** The [for] loop of [fetchFromAPIs], [fuel] iterations being left, run as
    one stretch: each awaited reply arrives before anything else touches the
    generator, so this is the round that no other round overlaps (the
    rounds with their awaits, which can overlap, are in [Round] below).
    Reading [source.enabled] of a missing entry throws outside the [try]. *)
Fixpoint fetchLoop (env : Env) (fuel : nat) (g : NoteGenerator)
    : completion (option jsstring) * NoteGenerator :=
  match fuel with
  | O => (Return None, g)
  | S fuel' =>
      let source := apiSources g !! currentApiIndex g in
      let g1 :=
        set_currentApiIndex
          ((currentApiIndex g + 1) `mod` length (apiSources g))%nat g in
      match source with
      | None => (Throw, g1)
      | Some source =>
          if negb (ApiSource.enabled source) then fetchLoop env fuel' g1
          else
            let '(text, g2) := sourceText env source g1 in
            match text with
            | Throw => fetchLoop env fuel' g2
            | Return text =>
                match accept text g2 with
                | Some (t, g3) => (Return (Some t), g3)
                | None => fetchLoop env fuel' g2
                end
            end
      end
  end.

Definition fetchFromAPIs (env : Env) (g : NoteGenerator)
    : completion (option jsstring) * NoteGenerator :=
  fetchLoop env (length (apiSources g)) g.

(** [getRandomMessage]. A refill runs [fetchFromAPIs] against the replies
    it is going to receive and is left pending: its callback runs after the
    caller has its text. *)
Definition getRandomMessage (env : Env) (g : NoteGenerator)
    : option jsstring * NoteGenerator :=
  match hitokotoCache g with
  | text :: rest =>
      let g1 := set_hitokotoCache rest g in
      let g2 :=
        if (length rest <? 3)%nat then
          let '(newText, g') := fetchFromAPIs env g1 in
          set_pendingRefills (pendingRefills g' ++ [newText]) g'
        else g1 in
      (Some text, g2)
  | [] => getLocalMessage (random env) g
  end.

(** The callbacks of a refill: [then] pushes a truthy text, [catch] does
    nothing. *)
Definition refillCallback (outcome : completion (option jsstring))
    (g : NoteGenerator) : NoteGenerator :=
  match outcome with
  | Return (Some newText) =>
      if truthy newText
      then set_hitokotoCache (hitokotoCache g ++ [newText]) g
      else g
  | Return None => g
  | Throw => g
  end.

(** The [i]-th pending refill settles. *)
Definition settleRefill (i : nat) (g : NoteGenerator) : NoteGenerator :=
  match pendingRefills g !! i with
  | Some outcome =>
      refillCallback outcome (set_pendingRefills (splice1 i (pendingRefills g)) g)
  | None => g
  end.

(** ** Colour and size *)

Definition getRandomColor (r : Q) : option string :=
  index colors (floorRandom r (length colors)).

Module Size.
Record t := mk { width : Z; height : Z; fontSize : Q }.
End Size.

Definition calculateNoteSize (text : jsstring) : Size.t :=
  let length := length text in
  if (50 <? length)%nat then Size.mk 130 120 (65 # 100)
  else if (40 <? length)%nat then Size.mk 120 110 (68 # 100)
  else if (25 <? length)%nat then Size.mk 115 108 (7 # 10)
  else if (15 <? length)%nat then Size.mk 110 105 (72 # 100)
  else if (length <? 8)%nat then Size.mk 90 90 (8 # 10)
  else Size.mk 100 100 (75 # 100).

(** ** The placement engine *)

Module Point.
Record t := mk { x : R; y : R }.
End Point.

Section Placement.
Local Open Scope R_scope.

(** The responsive scale of [getHeartPosition], from the smaller side of
    the canvas. *)
Definition heartScale (baseScale : R) : R :=
  if Rlt_dec baseScale 500 then baseScale * 0.025
  else if Rlt_dec baseScale 768 then baseScale * 0.028
  else if Rlt_dec baseScale 1024 then baseScale * 0.032
  else baseScale * 0.035.

Definition getHeartPosition (canvasRect : Canvas.t) (index totalNotes : R)
    : Point.t :=
  let centerX := Canvas.width canvasRect / 2 in
  let centerY := Canvas.height canvasRect / 2 in
  let angle := (index / totalNotes) * PI * 2 in
  let baseScale := Rmin (Canvas.width canvasRect) (Canvas.height canvasRect) in
  let scale := heartScale baseScale in
  let t := angle in
  let x := 16 * (sin t) ^ 3 * scale in
  let y :=
    - (13 * cos t - 5 * cos (2 * t) - 2 * cos (3 * t) - cos (4 * t)) * scale in
  Point.mk (centerX + x - 50) (centerY + y - 50).

Definition padding : R := 20.
Definition minDistance : R := 160.
Definition maxAttempts : nat := 30.

(** The point one sampling draws, from two values of [Math.random()]. *)
Definition samplePoint (canvasRect : Canvas.t) (noteWidth noteHeight : R)
    (rx ry : R) : Point.t :=
  Point.mk
    (padding + rx * (Canvas.width canvasRect - noteWidth - padding * 2))
    (padding + ry * (Canvas.height canvasRect - noteHeight - padding * 2)).

(** [this.notes.some(note => distance < minDistance)] at the point [p]. *)
Definition tooClose (placed : list Note.t) (p : Point.t) : bool :=
  existsb
    (fun note =>
       let dx := Note.x note - Point.x p in
       let dy := Note.y note - Point.y p in
       let distance := sqrt (dx * dx + dy * dy) in
       if Rlt_dec distance minDistance then true else false)
    placed.

(** The [while] loop of [getRandomPosition] with [fuel] attempts left after
    [attempts] rejected ones, and the draw that follows it. The values of
    [Math.random()] are read from [rnd] in the order they are drawn: two
    for each sampling. *)
Fixpoint placeLoop (canvasRect : Canvas.t) (placed : list Note.t)
    (noteWidth noteHeight : R) (rnd : nat -> R) (fuel attempts : nat)
    : Point.t :=
  let p :=
    samplePoint canvasRect noteWidth noteHeight
      (rnd (2 * attempts)%nat) (rnd (2 * attempts + 1)%nat) in
  match fuel with
  | O => p
  | S fuel' =>
      if tooClose placed p
      then placeLoop canvasRect placed noteWidth noteHeight rnd fuel'
             (S attempts)
      else p
  end.

Definition getRandomPosition (canvasRect : Canvas.t) (placed : list Note.t)
    (noteWidth noteHeight : R) (rnd : nat -> R) : Point.t :=
  placeLoop canvasRect placed noteWidth noteHeight rnd maxAttempts 0.

End Placement.

(** ** Notes on the wall *)

Definition appendChild (note : Elem) (c : Canvas.t) : Canvas.t :=
  Canvas.mk (Canvas.width c) (Canvas.height c) (Canvas.children c ++ [note]).

(** [generateNote], [note] being the element [document.createElement] makes.
    Reading [message.length] of an undefined message and reading the
    rectangle of a missing canvas throw. *)
Definition generateNote (env : Env) (colorRandom : Q) (note : Elem)
    (g : NoteGenerator) : completion Elem * NoteGenerator :=
  let '(message, g1) := getRandomMessage env g in
  match message with
  | None => (Throw, g1)
  | Some message =>
      let color := getRandomColor colorRandom in
      let size := calculateNoteSize message in
      match canvas g1 with
      | None => (Throw, g1)
      | Some c =>
          let position := getHeartPosition c (IZR (noteCount g1)) 50 in
          let g2 :=
            set_notes
              (notes g1 ++ [Note.mk (Point.x position) (Point.y position) note])
              g1 in
          let g3 := set_canvas (Some (appendChild note c)) g2 in
          (Return note, set_noteCount (noteCount g3 + 1) g3)
      end
  end.

Definition clearAll (g : NoteGenerator) : completion unit * NoteGenerator :=
  match canvas g with
  | None => (Throw, g)
  | Some c =>
      let g1 :=
        set_canvas (Some (Canvas.mk (Canvas.width c) (Canvas.height c) [])) g in
      let g2 := set_notes [] g1 in
      let g3 := set_noteCount 0 g2 in
      (Return tt, set_usedMessages ∅ g3)
  end.

Definition isElement (noteElement : Elem) (note : Note.t) : bool :=
  bool_decide (Note.element note = noteElement).

(** [noteElement.remove()] as far as the canvas is concerned. *)
Definition removeChild (noteElement : Elem) (c : Canvas.t) : Canvas.t :=
  Canvas.mk (Canvas.width c) (Canvas.height c)
    (filter (fun e => e ≠ noteElement) (Canvas.children c)).

Definition removeNote (noteElement : Elem) (g : NoteGenerator) : NoteGenerator :=
  match findIndex (isElement noteElement) (notes g) with
  | Some index =>
      let g1 := set_notes (splice1 index (notes g)) g in
      let g2 := set_canvas (removeChild noteElement <$> canvas g1) g1 in
      set_noteCount (noteCount g2 - 1) g2
  | None => g
  end.

Definition updateNotePosition (noteElement : Elem) (x y : R)
    (g : NoteGenerator) : NoteGenerator :=
  match findIndex (isElement noteElement) (notes g) with
  | Some index =>
      set_notes
        (alter (fun note => Note.mk x y (Note.element note)) index (notes g)) g
  | None => g
  end.

Definition getCount (g : NoteGenerator) : Z := noteCount g.

(** ** Conditions the properties are stated with *)

(** The condition under which [fetchHitokoto] appends the origin. *)
Definition hitokotoAttributes (from : jsstring) : Prop :=
  from ≠ [] ∧ from ≠ placeholder ∧ (length from < 15)%nat.

(** The condition under which [fetchJinrishici] appends the author. *)
Definition jinrishiciAttributes (author : jsstring) : Prop :=
  author ≠ [] ∧ (length author < 10)%nat.

(** [noteCount] counts the entries of [notes]. *)
Definition countInvariant (g : NoteGenerator) : Prop :=
  noteCount g = Z.of_nat (length (notes g)).

(** [g'] differs from [g] in the seen-set and the source cursor at most. *)
Record aggregatorFrame (g g' : NoteGenerator) : Prop := mkFrame {
  frame_messages : messages g' = messages g;
  frame_usedMessages : usedMessages g' = usedMessages g;
  frame_noteCount : noteCount g' = noteCount g;
  frame_canvas : canvas g' = canvas g;
  frame_notes : notes g' = notes g;
  frame_hitokotoCache : hitokotoCache g' = hitokotoCache g;
  frame_apiSources : apiSources g' = apiSources g;
  frame_pendingRefills : pendingRefills g' = pendingRefills g
}.

(** The calls a driver makes on the generator, and the settling of a
    refill. *)
Inductive Call : Type :=
| CallFetchFromAPIs (env : Env)
| CallGetRandomMessage (env : Env)
| RefillSettles (i : nat)
| CallGenerateNote (env : Env) (colorRandom : Q) (note : Elem)
| CallClearAll
| CallRemoveNote (noteElement : Elem)
| CallUpdateNotePosition (noteElement : Elem) (x y : R)
| CallGetCount.

(** The generator after a call. *)
Definition perform (c : Call) (g : NoteGenerator) : NoteGenerator :=
  match c with
  | CallFetchFromAPIs env => snd (fetchFromAPIs env g)
  | CallGetRandomMessage env => snd (getRandomMessage env g)
  | RefillSettles i => settleRefill i g
  | CallGenerateNote env colorRandom note =>
      snd (generateNote env colorRandom note g)
  | CallClearAll => snd (clearAll g)
  | CallRemoveNote noteElement => removeNote noteElement g
  | CallUpdateNotePosition noteElement x y =>
      updateNotePosition noteElement x y g
  | CallGetCount => g
  end.

Definition performAll (cs : list Call) (g : NoteGenerator) : NoteGenerator :=
  foldl (fun g c => perform c g) g cs.


(** The aggregation as the specification words it: visit the sources in
    [order], skip a disabled one, go on to the next one when a source fails
    or its text is rejected, and stop at the first accepted text. The number
    returned is that of the sources visited. *)
Fixpoint firstAccepted (env : Env) (order : list ApiSource.t)
    (g : NoteGenerator) : option jsstring * NoteGenerator * nat :=
  match order with
  | [] => (None, g, 0%nat)
  | source :: order' =>
      let next g1 :=
        let '(r, g', k) := firstAccepted env order' g1 in (r, g', S k) in
      if ApiSource.enabled source then
        match sourceText env source g with
        | (Return text, g1) =>
            match accept text g1 with
            | Some (t, g2) => (Some t, g2, 1%nat)
            | None => next g1
            end
        | (Throw, g1) => next g1
        end
      else next g
  end.

(** The sources in the order of one round that starts at the cursor, and
    the cursor moved past the sources visited. *)
Definition fetchFromSources (env : Env) (g : NoteGenerator)
    : option jsstring * NoteGenerator :=
  let '(r, g', k) :=
    firstAccepted env (rotate (currentApiIndex g) (apiSources g)) g in
  (r, set_currentApiIndex
        ((currentApiIndex g + k) `mod` length (apiSources g))%nat g').

(** The Euclidean distance between a recorded note and a point. *)
Definition distanceTo (note : Note.t) (p : Point.t) : R :=
  sqrt ((Note.x note - Point.x p) * (Note.x note - Point.x p)
        + (Note.y note - Point.y p) * (Note.y note - Point.y p)).

(** The [k]-th point [getRandomPosition] samples (from 0). *)
Definition sampleAt (canvasRect : Canvas.t) (noteWidth noteHeight : R)
    (rnd : nat → R) (k : nat) : Point.t :=
  samplePoint canvasRect noteWidth noteHeight
    (rnd (2 * k)%nat) (rnd (2 * k + 1)%nat).

(** The point keeps the minimum separation from every recorded note. *)
Definition separated (placed : list Note.t) (p : Point.t) : Prop :=
  ∀ note, note ∈ placed → (minDistance <= distanceTo note p)%R.

(** The padded bounds of the surface for a note of the given size. *)
Definition withinPadding (canvasRect : Canvas.t) (noteWidth noteHeight : R)
    (p : Point.t) : Prop :=
  (padding <= Point.x p
   <= padding + (Canvas.width canvasRect - noteWidth - 2 * padding))%R
  ∧ (padding <= Point.y p
     <= padding + (Canvas.height canvasRect - noteHeight - 2 * padding))%R.

(** Example states and environments. *)

(** A generator whose message list is [ms], with everything else as the
    constructor leaves it. *)
Definition withMessages (ms : list jsstring) : NoteGenerator :=
  mkGenerator ms ∅ 0 None [] [] ∅ (apiSources constructor) 0 [].

(** Both remote sources fail and [Math.random()] gives 0. *)
Definition offline : Env := mkEnv Failed Failed 0.

(** The hitokoto source answers with the text "H" and no origin. *)
Definition hitokotoAnswers : Env :=
  mkEnv (Json (Hitokoto.mk [72%N] None)) Failed 0.

(** A narrow surface of 120 by 600 pixels, and a wide one of 1200 by 800. *)
Definition narrowCanvas : Canvas.t := Canvas.mk 120 600 [].
Definition wideCanvas : Canvas.t := Canvas.mk 1200 800 [].

(** The local list holds the two messages "a" and "b"; nothing is cached. *)
Definition twoMessages : NoteGenerator := withMessages [[97%N]; [98%N]].

(** The same, "a" being in the seen-set. *)
Definition twoMessagesSeenA : NoteGenerator :=
  set_usedApiTexts {[ [97%N] ]} twoMessages.

(** The local list holds the one message "m". *)
Definition oneMessage : NoteGenerator := withMessages [[109%N]].

(** The one-message generator on the wide surface, no note placed yet. *)
Definition emptyWall : NoteGenerator := set_canvas (Some wideCanvas) oneMessage.

(** Two notes are recorded, of the elements 10 and 11. *)
Definition twoNotes : NoteGenerator :=
  set_notes [Note.mk 1 2 10%nat; Note.mk 3 4 11%nat] constructor.


(** The values of [Math.random()] are 0 for the 60 draws of the 30 attempts
    and 1/2 afterwards. *)
Definition zerosThenHalf (i : nat) : R :=
  if (i <? 60)%nat then 0%R else (1 / 2)%R.

(** One note is recorded, at the corner of the padded surface. *)
Definition cornerNote : list Note.t := [Note.mk 20 20 0%nat].

(** ** Conditions on the aggregator *)

(** The cursor points into the source list. *)
Definition cursorInRange (g : NoteGenerator) : Prop :=
  (currentApiIndex g < length (apiSources g))%nat.

(** Every message of the local list is in the seen-set. *)
Definition allSeen (g : NoteGenerator) : Prop :=
  ∀ m, m ∈ messages g → m ∈ usedApiTexts g.



(** The source cannot give a text in this environment: it is disabled, or it
    is one of the two remote sources and its request fails, or its name is
    none of the three. *)
Definition silent (env : Env) (source : ApiSource.t) : Prop :=
  ApiSource.enabled source = false
  ∨ (ApiSource.name source = "hitokoto"%string ∧ hitokotoReply env = Failed)
  ∨ (ApiSource.name source = "jinrishici"%string
     ∧ jinrishiciReply env = Failed)
  ∨ (ApiSource.name source ≠ "hitokoto"%string
     ∧ ApiSource.name source ≠ "jinrishici"%string
     ∧ ApiSource.name source ≠ "local"%string).



(** The hitokoto source answers "H" and the jinrishici source "J", both
    without an author. *)
Definition bothAnswer : Env :=
  mkEnv (Json (Hitokoto.mk [72%N] None)) (Json (Jinrishici.mk [74%N] None)) 0.

(** The constructor's sources with the local one switched off. *)
Definition remoteOnly : NoteGenerator :=
  mkGenerator [[109%N]] ∅ 0 None [] [] ∅
    [ ApiSource.mk "hitokoto" None true;
      ApiSource.mk "jinrishici" None true;
      ApiSource.mk "local" None false ] 0 [].

(** ** Conditions on the wall *)

(** No two records are of the same element. *)
Definition distinctElements (g : NoteGenerator) : Prop :=
  NoDup (Note.element <$> notes g).

(** The children of the canvas are the elements of the records, in order. *)
Definition domMirrorsNotes (g : NoteGenerator) : Prop :=
  ∀ c, canvas g = Some c → Canvas.children c = Note.element <$> notes g.

(** The element a call brings is new to the wall: [document.createElement]
    returns an element that no record holds. *)
Definition bringsFreshElement (c : Call) (g : NoteGenerator) : Prop :=
  match c with
  | CallGenerateNote _ _ note => ∀ n, n ∈ notes g → Note.element n ≠ note
  | _ => True
  end.

(** ** Re-layout after a resize *)

(** The record [noteInfo] moved to the slot [index] of the 50 of the
    curve. *)
Definition repositioned (c : Canvas.t) (index : nat) (noteInfo : Note.t)
    : Note.t :=
  let position := getHeartPosition c (INR index) 50 in
  Note.mk (Point.x position) (Point.y position) (Note.element noteInfo).

(** [NoteWallApp.repositionNotes], as far as the records of the generator
    go. With no note the loop body never runs; with notes and no canvas
    [getHeartPosition] throws at the first one. *)
Definition repositionNotes (g : NoteGenerator) : completion unit * NoteGenerator :=
  match notes g with
  | [] => (Return tt, g)
  | _ :: _ =>
      match canvas g with
      | None => (Throw, g)
      | Some c => (Return tt, set_notes (imap (repositioned c) (notes g)) g)
      end
  end.

(** Every record sits on the slot of the curve that its place in the list
    numbers. *)
Definition aligned (g : NoteGenerator) : Prop :=
  ∀ c i n, canvas g = Some c → notes g !! i = Some n →
           n = repositioned c i n.

(** The elements are distinct and the canvas shows them. *)
Definition wallInvariant (g : NoteGenerator) : Prop :=
  distinctElements g ∧ domMirrorsNotes g.

(** ** The application: [class NoteWallApp] *)

Module App.

(** The application once [init] has built the generator. Beside the fields
    of the class: the number the counter element shows, the classes of the
    start/pause button, and the intervals that are live in the browser,
    each with its period. An interval id is never 0. *)
Record t := mk {
  generator : NoteGenerator;
  isGenerating : bool;
  generationInterval : option positive;
  generationSpeed : Z;
  noteCountEl : Z;
  toggleBtn : gset string;
  intervals : gmap positive Z
}.

Definition set_generator (v : NoteGenerator) (a : t) : t :=
  mk v (isGenerating a) (generationInterval a) (generationSpeed a)
    (noteCountEl a) (toggleBtn a) (intervals a).

(** [updateCount]. *)
Definition updateCount (a : t) : t :=
  mk (generator a) (isGenerating a) (generationInterval a) (generationSpeed a)
    (getCount (generator a)) (toggleBtn a) (intervals a).

(** [generateOne]: when [generateNote] rejects, the statements after the
    [await] are not run. Enabling the drag and the tilt effect only add
    listeners to the note. *)
Definition generateOne (env : Env) (colorRandom : Q) (note : Elem) (a : t) : t :=
  let '(res, g) := generateNote env colorRandom note (generator a) in
  match res with
  | Return _ => updateCount (set_generator g a)
  | Throw => set_generator g a
  end.

(** [startGeneration], [id] being what [setInterval] returns. Of the button
    the classes are kept, not the icon it shows. *)
Definition startGeneration (id : positive) (env : Env) (colorRandom : Q)
    (note : Elem) (a : t) : t :=
  if isGenerating a then a
  else
    let a1 :=
      mk (generator a) true (generationInterval a) (generationSpeed a)
        (noteCountEl a)
        ({[ "secondary"%string ]} ∪ (toggleBtn a ∖ {[ "primary"%string ]}))
        (intervals a) in
    let a2 := generateOne env colorRandom note a1 in
    mk (generator a2) (isGenerating a2) (Some id) (generationSpeed a2)
      (noteCountEl a2) (toggleBtn a2)
      (<[id := generationSpeed a2]> (intervals a2)).

Definition stopGeneration (a : t) : t :=
  if negb (isGenerating a) then a
  else
    let classes :=
      {[ "primary"%string ]} ∪ (toggleBtn a ∖ {[ "secondary"%string ]}) in
    match generationInterval a with
    | Some id =>
        mk (generator a) false None (generationSpeed a) (noteCountEl a)
          classes (delete id (intervals a))
    | None =>
        mk (generator a) false None (generationSpeed a) (noteCountEl a)
          classes (intervals a)
    end.

(** The click on the start/pause button. *)
Definition toggleClick (id : positive) (env : Env) (colorRandom : Q)
    (note : Elem) (a : t) : t :=
  if isGenerating a then stopGeneration a
  else startGeneration id env colorRandom note a.

(** The input event of the speed slider, [value] being what [parseInt]
    reads and [id] what [setInterval] returns if it is called. *)
Definition speedInput (value : Z) (id : positive) (a : t) : t :=
  if isGenerating a then
    let live :=
      match generationInterval a with
      | Some old => delete old (intervals a)
      | None => intervals a
      end in
    mk (generator a) true (Some id) value (noteCountEl a) (toggleBtn a)
      (<[id := value]> live)
  else
    mk (generator a) false (generationInterval a) value (noteCountEl a)
      (toggleBtn a) (intervals a).

(** The browser runs the callback of the interval [id] if it is live. *)
Definition tick (id : positive) (env : Env) (colorRandom : Q) (note : Elem)
    (a : t) : t :=
  match intervals a !! id with
  | Some _ => generateOne env colorRandom note a
  | None => a
  end.

(** [clearAllNotes], [confirmed] being the answer to the dialog if it is
    shown. *)
Definition clearAllNotes (confirmed : bool) (a : t) : t :=
  if (0 <? getCount (generator a))%Z && negb confirmed then a
  else
    let '(res, g) := clearAll (generator a) in
    match res with
    | Return _ => updateCount (set_generator g a)
    | Throw => set_generator g a
    end.

(** The resize handler, once its timeout has run. *)
Definition resized (a : t) : t :=
  set_generator (snd (repositionNotes (generator a))) a.

(** What happens to the application. *)
Inductive Event : Type :=
| ToggleClick (id : positive) (env : Env) (colorRandom : Q) (note : Elem)
| SpeedInput (value : Z) (id : positive)
| Tick (id : positive) (env : Env) (colorRandom : Q) (note : Elem)
| ClearClick (confirmed : bool)
| Resized.

Definition handle (ev : Event) (a : t) : t :=
  match ev with
  | ToggleClick id env colorRandom note => toggleClick id env colorRandom note a
  | SpeedInput value id => speedInput value id a
  | Tick id env colorRandom note => tick id env colorRandom note a
  | ClearClick confirmed => clearAllNotes confirmed a
  | Resized => resized a
  end.

(** The interval the field names is the one live interval, with the current
    speed as its period, and there is one exactly while generating; the
    button shows the state; the counter element shows the counter, which is
    the number of records. *)
Definition invariant (a : t) : Prop :=
  intervals a
  = match generationInterval a with
    | Some id => {[ id := generationSpeed a ]}
    | None => ∅
    end
  ∧ (isGenerating a = true ↔ generationInterval a ≠ None)
  ∧ ("secondary"%string ∈ toggleBtn a ↔ isGenerating a = true)
  ∧ ("primary"%string ∈ toggleBtn a ↔ isGenerating a = false)
  ∧ noteCountEl a = getCount (generator a)
  ∧ countInvariant (generator a).

End App.

(** The application right after [init], before the automatic start: paused,
    no interval, the empty wall, a speed of 2000 ms. *)
Definition pausedApp : App.t :=
  App.mk emptyWall false None 2000 0 {[ "primary"%string ]} ∅.

(** ** The debug switch *)

Module Debug.

(** What [setDebugMode] of the application reads and writes: its own flag,
    the flag of the generator ([None] while [this.generator] is null), the
    class [active] of the debug button ([None] while the button is
    undefined) and the local storage of the browser. *)
Record t := mk {
  debugMode : bool;
  generatorDebugMode : option bool;
  debugBtnActive : option bool;
  localStorage : gmap string string
}.

(** [enabled.toString()]. *)
Definition toString (enabled : bool) : string :=
  if enabled then "true"%string else "false"%string.

Definition setDebugMode (enabled : bool) (d : t) : t :=
  mk enabled
    ((λ _, enabled) <$> generatorDebugMode d)
    ((λ _, enabled) <$> debugBtnActive d)
    (<["debugMode"%string := toString enabled]> (localStorage d)).

Definition toggleDebugMode (d : t) : t :=
  setDebugMode (negb (debugMode d)) d.

(** [localStorage.getItem('debugMode') === 'true']. *)
Definition savedDebugMode (storage : gmap string string) : bool :=
  bool_decide (storage !! "debugMode"%string = Some "true"%string).

(** The debug part of [init] on a fresh page with the given storage: the
    saved flag is set while the generator is still null, then the generator
    is built, with its flag off, and given the flag of the application. *)
Definition init (debugBtn : option bool) (storage : gmap string string) : t :=
  let d0 := mk false None debugBtn storage in
  let d1 := setDebugMode (savedDebugMode storage) d0 in
  mk (debugMode d1) (Some (debugMode d1)) (debugBtnActive d1) (localStorage d1).

End Debug.

(** ** Dragging: [class DragHandler] *)

Module Drag.

(** What the handler reads and writes of a note element: [style.left] and
    [style.top] as the numbers of pixels they hold, [style.zIndex], the
    class [dragging], and the size the layout gives it. *)
Record Element := mkElement {
  left : R;
  top : R;
  zIndex : Z;
  dragging : bool;
  offsetWidth : R;
  offsetHeight : R
}.

(** The fields of the handler. *)
Record Handler := mkHandler {
  draggedElement : option Elem;
  offsetX : R;
  offsetY : R;
  isDragging : bool
}.

(** The handler, the generator it was built with and the note elements of
    the document. *)
Record t := mk {
  handler : Handler;
  generator : NoteGenerator;
  elements : Elem → Element
}.

(** The position of a pointer, and the corner of a bounding rectangle, in
    the viewport. *)
Record Pointer := mkPointer { clientX : R; clientY : R }.
Record Corner := mkCorner { rectLeft : R; rectTop : R }.

(** The record of one element replaced. *)
Definition setElement (e : Elem) (v : Element) (elements : Elem → Element)
    : Elem → Element :=
  λ e', if decide (e' = e) then v else elements e'.

(** The constructor. *)
Definition idle : Handler := mkHandler None 0 0 false.

(** [startDrag], [rect] being the bounding rectangle of the note. *)
Definition startDrag (event : Pointer) (rect : Corner) (noteElement : Elem)
    (w : t) : t :=
  let el := elements w noteElement in
  mk (mkHandler (Some noteElement)
        (clientX event - rectLeft rect) (clientY event - rectTop rect) true)
     (generator w)
     (setElement noteElement
        (mkElement (left el) (top el) 1000 true (offsetWidth el) (offsetHeight el))
        (elements w)).

(** [updatePosition] for the dragged element [e], [canvasRect] being the
    corner of the bounding rectangle of the canvas. Reading the rectangle
    of a missing canvas throws. *)
Definition updatePosition (e : Elem) (clientX clientY : R)
    (canvasRect : Corner) (w : t) : completion unit * t :=
  match canvas (generator w) with
  | None => (Throw, w)
  | Some c =>
      let el := elements w e in
      let noteWidth := offsetWidth el in
      let noteHeight := offsetHeight el in
      let newX := (clientX - rectLeft canvasRect - offsetX (handler w))%R in
      let newY := (clientY - rectTop canvasRect - offsetY (handler w))%R in
      let newX := Rmax 0 (Rmin newX (Canvas.width c - noteWidth)) in
      let newY := Rmax 0 (Rmin newY (Canvas.height c - noteHeight)) in
      (Return tt,
       mk (handler w) (generator w)
          (setElement e
             (mkElement newX newY (zIndex el) (dragging el)
                (offsetWidth el) (offsetHeight el))
             (elements w)))
  end.

(** [onDrag]; [onDragTouch] is the same on the first touch. *)
Definition onDrag (event : Pointer) (canvasRect : Corner) (w : t)
    : completion unit * t :=
  match draggedElement (handler w) with
  | Some e =>
      if isDragging (handler w)
      then updatePosition e (clientX event) (clientY event) canvasRect w
      else (Return tt, w)
  | None => (Return tt, w)
  end.

Definition endDrag (w : t) : t :=
  match draggedElement (handler w) with
  | Some e =>
      if isDragging (handler w) then
        let el := elements w e in
        mk (mkHandler None (offsetX (handler w)) (offsetY (handler w)) false)
           (updateNotePosition e (left el) (top el) (generator w))
           (setElement e
              (mkElement (left el) (top el) 1 false
                 (offsetWidth el) (offsetHeight el))
              (elements w))
      else w
  | None => w
  end.

(** A whole gesture: the note is grabbed, the pointer moves through
    [moves], the note is dropped. A move that throws leaves the world as it
    was. *)
Definition gesture (down : Pointer) (rect : Corner) (noteElement : Elem)
    (canvasRect : Corner) (moves : list Pointer) (w : t) : t :=
  endDrag
    (foldl (λ w move, snd (onDrag move canvasRect w))
       (startDrag down rect noteElement w) moves).

End Drag.

(** The two notes of [twoNotes] on the wide surface, each 100 by 100 pixels
    and styled at the place of its record; nothing is dragged. *)
Definition restingWorld : Drag.t :=
  Drag.mk Drag.idle (set_canvas (Some wideCanvas) twoNotes)
    (λ e, if decide (e = 10%nat)
          then Drag.mkElement 1 2 1 false 100 100
          else Drag.mkElement 3 4 1 false 100 100).

(** The same, the note of the element 10 being grabbed at the point
    (30, 40) of the viewport. *)
Definition grabbedWorld : Drag.t :=
  Drag.startDrag (Drag.mkPointer 30 40) (Drag.mkCorner 1 2) 10%nat
    restingWorld.

(** ** The tilt effect *)


(** ** Rounds of [fetchFromAPIs] with their awaits *)

Module Round.

(** The request a round is waiting for. *)
Inductive Await : Type := AwaitHitokoto | AwaitJinrishici.

(** A call of [fetchFromAPIs] under way: suspended in the iteration [i] at
    the [await] of a remote source, or settled with its result. *)
Inductive t : Type :=
| Suspended (i : nat) (request : Await)
| Settled (res : completion (option jsstring)).

(** The loop from the head of the iteration [i], [fuel] iterations being
    left, as far as it runs without a break: until the next remote source,
    where it suspends, or until it returns. [r] is the value of
    [Math.random()] for the local pick. *)
Fixpoint advance (r : Q) (fuel i : nat) (g : NoteGenerator)
    : t * NoteGenerator :=
  match fuel with
  | O => (Settled (Return None), g)
  | S fuel' =>
      let source := apiSources g !! currentApiIndex g in
      let g1 :=
        set_currentApiIndex
          ((currentApiIndex g + 1) `mod` length (apiSources g))%nat g in
      match source with
      | None => (Settled Throw, g1)
      | Some source =>
          if negb (ApiSource.enabled source) then advance r fuel' (S i) g1
          else if bool_decide (ApiSource.name source = "hitokoto"%string)
          then (Suspended i AwaitHitokoto, g1)
          else if bool_decide (ApiSource.name source = "jinrishici"%string)
          then (Suspended i AwaitJinrishici, g1)
          else if bool_decide (ApiSource.name source = "local"%string) then
            let '(text, g2) := getLocalMessage r g1 in
            match accept text g2 with
            | Some (t, g3) => (Settled (Return (Some t)), g3)
            | None => advance r fuel' (S i) g2
            end
          else advance r fuel' (S i) g1
      end
  end.

(** The call: the round runs up to its first [await]. *)
Definition start (r : Q) (g : NoteGenerator) : t * NoteGenerator :=
  advance r (length (apiSources g)) 0 g.

(** The awaited request is over, with the reply [env] holds for it, and the
    round goes on from the generator as it is by then: the text is checked
    against the seen-set of that moment, and the loop continues at the
    cursor of that moment. *)
Definition resume (env : Env) (i : nat) (request : Await) (g : NoteGenerator)
    : t * NoteGenerator :=
  let text :=
    match request with
    | AwaitHitokoto => fetchHitokoto (hitokotoReply env)
    | AwaitJinrishici => fetchJinrishici (jinrishiciReply env)
    end in
  let continue :=
    advance (random env) (length (apiSources g) - S i) (S i) g in
  match text with
  | Throw => continue
  | Return text =>
      match accept (Some text) g with
      | Some (t, g') => (Settled (Return (Some t)), g')
      | None => continue
      end
  end.

(** One stretch of a round that is under way. *)
Definition step (env : Env) (round : t) (g : NoteGenerator)
    : t * NoteGenerator :=
  match round with
  | Suspended i request => resume env i request g
  | Settled _ => (round, g)
  end.

(** [fuel] stretches of one round, one after the other, with nothing in
    between. *)
Fixpoint finish (env : Env) (fuel : nat) (round : t) (g : NoteGenerator)
    : t * NoteGenerator :=
  match fuel with
  | O => (round, g)
  | S fuel' =>
      let '(round', g') := step env round g in finish env fuel' round' g'
  end.

(** A round that nothing overlaps: from the call to the return, only its own
    stretches run. *)
Definition runAlone (env : Env) (g : NoteGenerator) : t * NoteGenerator :=
  let '(round, g1) := start (random env) g in
  finish env (length (apiSources g)) round g1.

End Round.

(** Two rounds started together from [twoMessages], both remote sources
    failing and [Math.random()] giving 0: the first round is called, then
    the second; the reply of the first arrives, then those of the second.
    The result is the generator after the first call, the second round when
    it has settled and the generator at the end. *)
Definition overlappedRounds : NoteGenerator * Round.t * NoteGenerator :=
  let '(roundA, g1) := Round.start 0 twoMessages in
  let '(roundB, g2) := Round.start 0 g1 in
  let '(roundA', g3) := Round.step offline roundA g2 in
  let '(roundB', g4) := Round.finish offline 3 roundB g3 in
  (g1, roundB', g4).

(** The two messages with "a" seen, behind sources of which the local one is
    switched off: with both remote requests failing no source gives a
    text. *)
Definition remoteOnlySeenA : NoteGenerator :=
  mkGenerator [[97%N]; [98%N]] ∅ 0 None [] [] {[ [97%N] ]}
    [ ApiSource.mk "hitokoto" None true;
      ApiSource.mk "jinrishici" None true;
      ApiSource.mk "local" None false ] 0 [].

(** The wall of 1200 by 800 with two notes on it, of the elements 10 and
    11, both counted. *)
Definition wallOfTwo : NoteGenerator :=
  set_noteCount 2
    (set_notes [Note.mk 1 2 10%nat; Note.mk 3 4 11%nat]
       (set_canvas (Some (Canvas.mk 1200 800 [10%nat; 11%nat])) oneMessage)).

(** ** Rounds that overlap *)

(** What the stretch of a round that returns the text [t] has done to the
    seen-set, from the generator [g] the stretch started with to the
    generator [g'] it ends with: the text is not empty and is recorded; it
    was not in the seen-set and has been added to it, or else the whole
    local list had been seen, the set was reset by the local pick and holds
    the text alone. *)
Definition freshAndRecorded (g : NoteGenerator) (t : jsstring)
    (g' : NoteGenerator) : Prop :=
  t ≠ [] ∧ t ∈ usedApiTexts g'
  ∧ (((t ∉ usedApiTexts g) ∧ usedApiTexts g' = {[ t ]} ∪ usedApiTexts g)
     ∨ (allSeen g ∧ usedApiTexts g' = {[ t ]})).

(** What any stretch of a round has done to the seen-set: the above when it
    returns a text; otherwise nothing, or the reset of a local pick that
    found the whole list seen. *)
Definition stretchOutcome (g : NoteGenerator) (round : Round.t)
    (g' : NoteGenerator) : Prop :=
  match round with
  | Round.Settled (Return (Some t)) => freshAndRecorded g t g'
  | _ =>
      usedApiTexts g' = usedApiTexts g
      ∨ (allSeen g ∧ usedApiTexts g' = ∅)
  end.

Module Rounds.

(** The generator, the calls of [fetchFromAPIs] made so far (by the preload
    or by refills), each one under way or settled, and the texts the calls
    have returned so far, in the order they were returned. *)
Record World := mkWorld {
  generator : NoteGenerator;
  rounds : list Round.t;
  delivered : list jsstring
}.

(** [fetchFromAPIs] is called; the request the [k]-th call waits for is
    over, with the replies of [env]; [getLocalMessage] is called, as
    [getRandomMessage] does on an empty cache. Each one runs as one stretch,
    and the stretches come in any order. *)
Inductive Event : Type :=
| Begin (r : Q)
| Continue (k : nat) (env : Env)
| LocalPick (r : Q).

(** The text a round has returned, if it has. *)
Definition returned (round : Round.t) : list jsstring :=
  match round with
  | Round.Settled (Return (Some t)) => [t]
  | _ => []
  end.

Definition react (ev : Event) (w : World) : World :=
  match ev with
  | Begin r =>
      let '(round, g) := Round.start r (generator w) in
      mkWorld g (rounds w ++ [round]) (delivered w ++ returned round)
  | Continue k env =>
      match rounds w !! k with
      | Some (Round.Suspended i request) =>
          let '(round, g) := Round.resume env i request (generator w) in
          mkWorld g (<[k := round]> (rounds w)) (delivered w ++ returned round)
      | _ => w
      end
  | LocalPick r =>
      mkWorld (snd (getLocalMessage r (generator w))) (rounds w) (delivered w)
  end.

Definition run (evs : list Event) (w : World) : World :=
  foldl (fun w ev => react ev w) w evs.

(** No call has been made yet. *)
Definition initial (g : NoteGenerator) : World := mkWorld g [] [].

End Rounds.

(** Two rounds are started one after the other on the two-message list, then
    the request of the first one is answered, then that of the second one;
    the hitokoto source answers "H" and the jinrishici source "J". *)
Definition twoOverlapped : list Rounds.Event :=
  [Rounds.Begin 0; Rounds.Begin 0;
   Rounds.Continue 0 bothAnswer; Rounds.Continue 1 bothAnswer].

(** The generator of those two rounds when the first one has returned and
    the second one is still waiting. *)
Definition afterFirstReturn : NoteGenerator :=
  Rounds.generator
    (Rounds.run (take 3 twoOverlapped) (Rounds.initial twoMessages)).

(** * Properties *)

(** ** Attribution lines *)

Lemma app_prefix_neq (text author : jsstring) :
  text ++ attributionPrefix ++ author ≠ text.
Proof.
  intros H. apply (f_equal length) in H.
  rewrite !length_app in H. simpl in H. lia.
Qed.

Lemma truthy_nonempty (s : jsstring) : truthy s = true ↔ s ≠ [].
Proof. destruct s; simpl; split; intros; congruence. Qed.

Lemma fetchHitokoto_cases (text from : jsstring) :
  (hitokotoAttributes from ∧
   fetchHitokoto (Json (Hitokoto.mk text (Some from)))
     = Return (text ++ attributionPrefix ++ from))
  ∨ (¬ hitokotoAttributes from ∧
     fetchHitokoto (Json (Hitokoto.mk text (Some from))) = Return text).
Proof.
  unfold hitokotoAttributes, fetchHitokoto. simpl.
  destruct (truthy from) eqn:Ht; simpl.
  - apply truthy_nonempty in Ht.
    destruct (bool_decide_reflect (from = placeholder)) as [Hp | Hp]; simpl.
    + right. split; [tauto | reflexivity].
    + destruct (Nat.ltb_spec (length from) 15).
      * left. tauto.
      * right. split; [lia | reflexivity].
  - right. split; [| reflexivity].
    intros (Hne & _). apply truthy_nonempty in Hne. congruence.
Qed.

Lemma fetchJinrishici_cases (text author : jsstring) :
  (jinrishiciAttributes author ∧
   fetchJinrishici (Json (Jinrishici.mk text (Some author)))
     = Return (text ++ attributionPrefix ++ author))
  ∨ (¬ jinrishiciAttributes author ∧
     fetchJinrishici (Json (Jinrishici.mk text (Some author))) = Return text).
Proof.
  unfold jinrishiciAttributes, fetchJinrishici. simpl.
  destruct (truthy author) eqn:Ht; simpl.
  - apply truthy_nonempty in Ht.
    destruct (Nat.ltb_spec (length author) 10).
    + left. tauto.
    + right. split; [lia | reflexivity].
  - right. split; [| reflexivity].
    intros (Hne & _). apply truthy_nonempty in Hne. congruence.
Qed.

(** C2, as the code has it. Both remote sources append the line feed, TWO em
    dashes, a space and the author to the quote. The hitokoto source does so
    if and only if the origin is present, not empty, not the placeholder and
    shorter than 15 code units; the jinrishici source if and only if the
    author is present, not empty and shorter than 10 code units (it has no
    placeholder test). In every other case the quote is returned as it
    is. *)
Theorem attribution_appended_iff (text author : jsstring) :
  (fetchHitokoto (Json (Hitokoto.mk text (Some author)))
     = Return (text ++ attributionPrefix ++ author)
   ↔ hitokotoAttributes author)
  ∧ (fetchHitokoto (Json (Hitokoto.mk text (Some author))) = Return text
     ↔ ¬ hitokotoAttributes author)
  ∧ fetchHitokoto (Json (Hitokoto.mk text None)) = Return text
  ∧ (fetchJinrishici (Json (Jinrishici.mk text (Some author)))
       = Return (text ++ attributionPrefix ++ author)
     ↔ jinrishiciAttributes author)
  ∧ (fetchJinrishici (Json (Jinrishici.mk text (Some author))) = Return text
     ↔ ¬ jinrishiciAttributes author)
  ∧ fetchJinrishici (Json (Jinrishici.mk text None)) = Return text.
Proof.
  pose proof (app_prefix_neq text author) as Hneq.
  pose proof (fetchHitokoto_cases text author) as Hh.
  pose proof (fetchJinrishici_cases text author) as Hj.
  split; [| split; [| split; [| split; [| split]]]]; try reflexivity.
  - split; intros H.
    + destruct Hh as [[Ha _] | [_ Hr]]; [assumption | rewrite Hr in H; congruence].
    + destruct Hh as [[_ Hr] | [Ha _]]; [assumption | contradiction].
  - split; intros H.
    + intros Ha. destruct Hh as [[_ Hr] | [Hn _]];
        [rewrite Hr in H; congruence | contradiction].
    + destruct Hh as [[Ha _] | [_ Hr]]; [contradiction | assumption].
  - split; intros H.
    + destruct Hj as [[Ha _] | [_ Hr]]; [assumption | rewrite Hr in H; congruence].
    + destruct Hj as [[_ Hr] | [Ha _]]; [assumption | contradiction].
  - split; intros H.
    + intros Ha. destruct Hj as [[_ Hr] | [Hn _]];
        [rewrite Hr in H; congruence | contradiction].
    + destruct Hj as [[Ha _] | [_ Hr]]; [contradiction | assumption].
Qed.

(** A one-letter author, below both caps and not the placeholder, is
    appended by both sources. *)
Lemma attribution_appended_iff_witness :
  fetchHitokoto (Json (Hitokoto.mk [65%N] (Some [66%N])))
    = Return ([65%N] ++ attributionPrefix ++ [66%N])
  ∧ fetchJinrishici (Json (Jinrishici.mk [65%N] (Some [66%N])))
    = Return ([65%N] ++ attributionPrefix ++ [66%N]).
Proof.
  destruct (attribution_appended_iff [65%N] [66%N])
    as (Hh & _ & _ & Hj & _).
  split.
  - apply Hh. unfold hitokotoAttributes.
    split; [discriminate |]. split; [discriminate | simpl; lia].
  - apply Hj. unfold jinrishiciAttributes.
    split; [discriminate | simpl; lia].
Defined.

(** C2 as stated fails twice. A one-letter origin is not appended in the form
    line feed, ONE em dash, space, author; and the jinrishici source appends
    an author equal to the placeholder. *)
Lemma attribution_claim_fails :
  fetchHitokoto (Json (Hitokoto.mk [65%N] (Some [66%N])))
    ≠ Return ([65%N] ++ [10%N; 8212%N; 32%N] ++ [66%N])
  ∧ fetchJinrishici (Json (Jinrishici.mk [65%N] (Some placeholder)))
    = Return ([65%N] ++ attributionPrefix ++ placeholder).
Proof. split; [intros H; vm_compute in H; congruence | reflexivity]. Qed.

(** ** The heart curve *)

Section HeartCurve.
Local Open Scope R_scope.

Lemma heartScale_below_500 (b : R) : b < 500 → heartScale b = b * 0.025.
Proof.
  intros H. unfold heartScale. destruct (Rlt_dec b 500); [reflexivity | lra].
Qed.

Lemma heartScale_below_768 (b : R) :
  500 <= b → b < 768 → heartScale b = b * 0.028.
Proof.
  intros H1 H2. unfold heartScale.
  destruct (Rlt_dec b 500); [lra |].
  destruct (Rlt_dec b 768); [reflexivity | lra].
Qed.

Lemma heartScale_below_1024 (b : R) :
  768 <= b → b < 1024 → heartScale b = b * 0.032.
Proof.
  intros H1 H2. unfold heartScale.
  destruct (Rlt_dec b 500); [lra |].
  destruct (Rlt_dec b 768); [lra |].
  destruct (Rlt_dec b 1024); [reflexivity | lra].
Qed.

Lemma heartScale_from_1024 (b : R) : 1024 <= b → heartScale b = b * 0.035.
Proof.
  intros H. unfold heartScale.
  destruct (Rlt_dec b 500); [lra |].
  destruct (Rlt_dec b 768); [lra |].
  destruct (Rlt_dec b 1024); [lra | reflexivity].
Qed.

End HeartCurve.

(** C5. The scale [getHeartPosition] multiplies the curve by is the smaller
    side of the canvas times a factor that side selects, boundaries
    included as in the table: 0.025 below 500 (so at 499), 0.028 from 500
    (so at exactly 500) and below 768, 0.032 from 768 and below 1024, 0.035
    from 1024 (so at exactly 1024) on. *)
Theorem heart_scale_breakpoints (c : Canvas.t) (index totalNotes : R) :
  let baseScale := Rmin (Canvas.width c) (Canvas.height c) in
  let angle := (index / totalNotes * PI * 2)%R in
  Point.x (getHeartPosition c index totalNotes)
    = (Canvas.width c / 2 + 16 * sin angle ^ 3 * heartScale baseScale - 50)%R
  ∧ Point.y (getHeartPosition c index totalNotes)
    = (Canvas.height c / 2
       + - (13 * cos angle - 5 * cos (2 * angle) - 2 * cos (3 * angle)
            - cos (4 * angle)) * heartScale baseScale - 50)%R
  ∧ (baseScale = 499%R → heartScale baseScale = (499 * 0.025)%R)
  ∧ (baseScale = 500%R → heartScale baseScale = (500 * 0.028)%R)
  ∧ (baseScale = 1024%R → heartScale baseScale = (1024 * 0.035)%R)
  ∧ ((baseScale < 500)%R → heartScale baseScale = (baseScale * 0.025)%R)
  ∧ ((500 <= baseScale)%R → (baseScale < 768)%R →
     heartScale baseScale = (baseScale * 0.028)%R)
  ∧ ((768 <= baseScale)%R → (baseScale < 1024)%R →
     heartScale baseScale = (baseScale * 0.032)%R)
  ∧ ((1024 <= baseScale)%R → heartScale baseScale = (baseScale * 0.035)%R).
Proof.
  intros baseScale angle.
  split; [reflexivity |]. split; [reflexivity |].
  split; [intros ->; apply heartScale_below_500; lra |].
  split; [intros ->; apply heartScale_below_768; lra |].
  split; [intros ->; apply heartScale_from_1024; lra |].
  split; [apply heartScale_below_500 |].
  split; [apply heartScale_below_768 |].
  split; [apply heartScale_below_1024 | apply heartScale_from_1024].
Qed.

(** The table read off at canvases of 499 by 800, 900 by 500, 800 by 1000
    and 1024 by 2000 pixels. *)
Lemma heart_scale_breakpoints_witness :
  heartScale (Rmin 499 800) = (499 * 0.025)%R
  ∧ heartScale (Rmin 900 500) = (500 * 0.028)%R
  ∧ heartScale (Rmin 800 1000) = (Rmin 800 1000 * 0.032)%R
  ∧ heartScale (Rmin 1024 2000) = (1024 * 0.035)%R.
Proof.
  split; [| split; [| split]].
  - apply (heart_scale_breakpoints (Canvas.mk 499 800 []) 0 50).
    simpl. unfold Rmin. destruct (Rle_dec 499 800); lra.
  - apply (heart_scale_breakpoints (Canvas.mk 900 500 []) 0 50).
    simpl. unfold Rmin. destruct (Rle_dec 900 500); lra.
  - apply (heart_scale_breakpoints (Canvas.mk 800 1000 []) 0 50);
      simpl; unfold Rmin; destruct (Rle_dec 800 1000); lra.
  - apply (heart_scale_breakpoints (Canvas.mk 1024 2000 []) 0 50).
    simpl. unfold Rmin. destruct (Rle_dec 1024 2000); lra.
Defined.

(** C8. For a positive number of slots the positions of index 0 and of index
    [totalNotes] are the same point: their angles are 0 and 2π, where the
    sines and the cosines of the curve agree. *)
Theorem heart_position_periodic (c : Canvas.t) (totalNotes : R) :
  (0 < totalNotes)%R →
  getHeartPosition c 0 totalNotes = getHeartPosition c totalNotes totalNotes.
Proof.
  intros Hpos. unfold getHeartPosition.
  replace (0 / totalNotes * PI * 2)%R with 0%R by (field; lra).
  replace (totalNotes / totalNotes * PI * 2)%R with (0 + 2 * INR 1 * PI)%R
    by (simpl; field; lra).
  replace (2 * (0 + 2 * INR 1 * PI))%R with (0 + 2 * INR 2 * PI)%R
    by (simpl; ring).
  replace (3 * (0 + 2 * INR 1 * PI))%R with (0 + 2 * INR 3 * PI)%R
    by (simpl; ring).
  replace (4 * (0 + 2 * INR 1 * PI))%R with (0 + 2 * INR 4 * PI)%R
    by (simpl; ring).
  rewrite !cos_period, sin_period.
  replace (2 * 0)%R with 0%R by ring.
  replace (3 * 0)%R with 0%R by ring.
  replace (4 * 0)%R with 0%R by ring.
  reflexivity.
Qed.

(** The 50 slots [generateNote] assumes, on a canvas of 1200 by 800. *)
Lemma heart_position_periodic_witness :
  getHeartPosition (Canvas.mk 1200 800 []) 0 50
  = getHeartPosition (Canvas.mk 1200 800 []) 50 50.
Proof. apply heart_position_periodic. lra. Defined.

(** ** Array helpers *)

Lemma findIndex_Some {A : Type} (p : A → bool) (l : list A) (i : nat) :
  findIndex p l = Some i →
  ∃ a, l !! i = Some a ∧ p a = true
       ∧ ∀ j b, (j < i)%nat → l !! j = Some b → p b = false.
Proof.
  revert i. induction l as [| a l IH]; intros i H; simpl in H; [discriminate |].
  destruct (p a) eqn:Hp.
  - injection H as <-. exists a. repeat split; [assumption |]. intros; lia.
  - destruct (findIndex p l) as [k |] eqn:Hk; simpl in H; [| discriminate].
    injection H as <-. destruct (IH k eq_refl) as (b & Hb & Hpb & Hmin).
    exists b. repeat split; [assumption .. |].
    intros [| j] c Hj Hc; simpl in Hc.
    + congruence.
    + apply (Hmin j); [lia | assumption].
Qed.

Lemma findIndex_None {A : Type} (p : A → bool) (l : list A) :
  findIndex p l = None ↔ ∀ a, a ∈ l → p a = false.
Proof.
  induction l as [| a l IH]; simpl.
  - split; [intros _ b Hb; inversion Hb | reflexivity].
  - destruct (p a) eqn:Hp.
    + split; [discriminate |]. intros H.
      rewrite (H a) in Hp; [discriminate | constructor].
    + destruct (findIndex p l) as [k |]; simpl.
      * split; [discriminate |]. intros H.
        assert (Hn : Some k = None) by (apply IH; intros b Hb; apply H; by constructor).
        discriminate.
      * split; [| reflexivity]. intros _ b Hb.
        apply elem_of_cons in Hb as [-> | Hb]; [assumption |].
        by apply IH.
Qed.

Lemma length_splice1 {A : Type} (i : nat) (l : list A) :
  (i < length l)%nat → length l = S (length (splice1 i l)).
Proof.
  intros H. unfold splice1. rewrite length_app, length_take, length_drop. lia.
Qed.

(** ** What the aggregator leaves alone *)

Lemma aggregatorFrame_refl (g : NoteGenerator) : aggregatorFrame g g.
Proof. by constructor. Qed.

Lemma aggregatorFrame_trans (g1 g2 g3 : NoteGenerator) :
  aggregatorFrame g1 g2 → aggregatorFrame g2 g3 → aggregatorFrame g1 g3.
Proof.
  intros [] []. constructor; congruence.
Qed.

Lemma getLocalMessage_frame (r : Q) (g : NoteGenerator) :
  aggregatorFrame g (snd (getLocalMessage r g)).
Proof.
  unfold getLocalMessage.
  destruct (length _ =? 0)%nat; simpl; by constructor.
Qed.

Lemma sourceText_frame (env : Env) (source : ApiSource.t) (g : NoteGenerator) :
  aggregatorFrame g (snd (sourceText env source g)).
Proof.
  unfold sourceText.
  repeat case_bool_decide; simpl; try apply aggregatorFrame_refl.
  pose proof (getLocalMessage_frame (random env) g) as Hl.
  destruct (getLocalMessage (random env) g). exact Hl.
Qed.

Lemma accept_frame (text : option jsstring) (g : NoteGenerator)
    (t : jsstring) (g' : NoteGenerator) :
  accept text g = Some (t, g') → aggregatorFrame g g'.
Proof.
  unfold accept. destruct text as [s |]; [| discriminate].
  destruct (truthy s && _); [| discriminate].
  intros [= <- <-]. by constructor.
Qed.

Lemma fetchLoop_frame (env : Env) (fuel : nat) (g : NoteGenerator) :
  aggregatorFrame g (snd (fetchLoop env fuel g)).
Proof.
  revert g. induction fuel as [| fuel IH]; intros g; simpl.
  - apply aggregatorFrame_refl.
  - set (g1 := set_currentApiIndex _ g).
    assert (H1 : aggregatorFrame g g1) by by constructor.
    destruct (apiSources g !! currentApiIndex g) as [source |]; [| exact H1].
    destruct (ApiSource.enabled source); simpl.
    + pose proof (sourceText_frame env source g1) as H2.
      destruct (sourceText env source g1) as [text g2]. simpl in H2.
      assert (H12 : aggregatorFrame g g2) by (eapply aggregatorFrame_trans; eauto).
      destruct text as [text |].
      * destruct (accept text g2) as [[t g3] |] eqn:Ha.
        -- simpl. eapply aggregatorFrame_trans; [exact H12 |].
           eapply accept_frame; eassumption.
        -- eapply aggregatorFrame_trans; [exact H12 | apply IH].
      * eapply aggregatorFrame_trans; [exact H12 | apply IH].
    + eapply aggregatorFrame_trans; [exact H1 | apply IH].
Qed.

Lemma fetchFromAPIs_frame (env : Env) (g : NoteGenerator) :
  aggregatorFrame g (snd (fetchFromAPIs env g)).
Proof. apply fetchLoop_frame. Qed.

Lemma advance_frame (r : Q) (fuel i : nat) (g : NoteGenerator) :
  aggregatorFrame g (snd (Round.advance r fuel i g)).
Proof.
  revert i g. induction fuel as [| fuel IH]; intros i g; simpl.
  - apply aggregatorFrame_refl.
  - set (g1 := set_currentApiIndex _ g).
    assert (Hg1 : aggregatorFrame g g1) by by constructor.
    destruct (apiSources g !! currentApiIndex g) as [source |]; [| exact Hg1].
    destruct (ApiSource.enabled source); simpl;
      [| eapply aggregatorFrame_trans; [exact Hg1 | apply IH]].
    repeat case_bool_decide; simpl; try exact Hg1;
      [| eapply aggregatorFrame_trans; [exact Hg1 | apply IH]].
    pose proof (getLocalMessage_frame r g1) as Hl.
    destruct (getLocalMessage r g1) as [text g2]. simpl in Hl.
    assert (Hg2 : aggregatorFrame g g2) by (eapply aggregatorFrame_trans; eauto).
    destruct (accept text g2) as [[t g3] |] eqn:Ha; simpl.
    + eapply aggregatorFrame_trans; [exact Hg2 |].
      eapply accept_frame; eassumption.
    + eapply aggregatorFrame_trans; [exact Hg2 | apply IH].
Qed.

Lemma start_frame (r : Q) (g : NoteGenerator) :
  aggregatorFrame g (snd (Round.start r g)).
Proof. apply advance_frame. Qed.

Lemma step_frame (env : Env) (round : Round.t) (g : NoteGenerator) :
  aggregatorFrame g (snd (Round.step env round g)).
Proof.
  destruct round as [i request | res]; simpl; [| apply aggregatorFrame_refl].
  unfold Round.resume.
  destruct (match request with
            | Round.AwaitHitokoto => fetchHitokoto (hitokotoReply env)
            | Round.AwaitJinrishici => fetchJinrishici (jinrishiciReply env)
            end) as [text |]; [| apply advance_frame].
  destruct (accept (Some text) g) as [[t g'] |] eqn:Ha; [| apply advance_frame].
  simpl. eapply accept_frame; eassumption.
Qed.

Lemma refillCallback_frame (outcome : completion (option jsstring))
    (g : NoteGenerator) :
  notes (refillCallback outcome g) = notes g
  ∧ noteCount (refillCallback outcome g) = noteCount g.
Proof.
  unfold refillCallback. destruct outcome as [[t |] |]; [| done | done].
  destruct (truthy t); done.
Qed.

(** ** Random indices *)

Lemma floorRandom_range (r : Q) (n : nat) :
  (0 <= r)%Q → (r < 1)%Q → (0 < n)%nat →
  (0 <= floorRandom r n < Z.of_nat n)%Z.
Proof.
  intros H0 H1 Hn. unfold floorRandom.
  set (q := inject_Z (Z.of_nat n)).
  assert (Hq : (0 < q)%Q).
  { unfold q. replace 0%Q with (inject_Z 0) by reflexivity.
    rewrite <- Zlt_Qlt. lia. }
  split.
  - change 0%Z with (Qfloor 0). apply Qfloor_resp_le.
    apply Qmult_le_0_compat; [assumption | by apply Qlt_le_weak].
  - rewrite Zlt_Qlt. fold q.
    apply Qle_lt_trans with (y := (r * q)%Q); [apply Qfloor_le |].
    assert (Hlt : (r * q < 1 * q)%Q) by (by apply Qmult_lt_compat_r).
    by rewrite Qmult_1_l in Hlt.
Qed.

Lemma index_floorRandom {A : Type} (l : list A) (r : Q) :
  (0 <= r)%Q → (r < 1)%Q → l ≠ [] →
  ∃ a, index l (floorRandom r (length l)) = Some a ∧ a ∈ l.
Proof.
  intros H0 H1 Hl.
  assert (Hn : (0 < length l)%nat) by (destruct l; [congruence | simpl; lia]).
  pose proof (floorRandom_range r (length l) H0 H1 Hn) as [Hlo Hhi].
  unfold index. destruct (Z.leb_spec 0 (floorRandom r (length l))); [| lia].
  destruct (lookup_lt_is_Some_2 l (Z.to_nat (floorRandom r (length l))))
    as [a Ha]; [lia |].
  exists a. split; [assumption |]. eapply list_elem_of_lookup_2; eassumption.
Qed.

(** ** The local pick *)

Lemma getLocalMessage_some (r : Q) (g : NoteGenerator) :
  (0 <= r)%Q → (r < 1)%Q → messages g ≠ [] →
  ∃ t, fst (getLocalMessage r g) = Some t ∧ t ∈ messages g
       ∧ ((∃ m, m ∈ messages g ∧ m ∉ usedApiTexts g) →
          (t ∉ usedApiTexts g) ∧ snd (getLocalMessage r g) = g)
       ∧ ((∀ m, m ∈ messages g → m ∈ usedApiTexts g) →
          snd (getLocalMessage r g) = set_usedApiTexts ∅ g).
Proof.
  intros H0 H1 Hm. unfold getLocalMessage.
  set (available := filter (λ msg, msg ∉ usedApiTexts g) (messages g)).
  destruct (Nat.eqb_spec (length available) 0) as [He | He]; simpl.
  - destruct (index_floorRandom (messages g) r H0 H1 Hm) as (t & Ht & Hin).
    exists t. split; [assumption |]. split; [assumption |].
    apply nil_length_inv in He. split; [| reflexivity].
    intros (m & Hmin & Hnot). exfalso.
    assert (Hav : m ∈ available) by (apply list_elem_of_filter; by split).
    rewrite He in Hav. inversion Hav.
  - assert (Hne : available ≠ []) by (intros Hnil; rewrite Hnil in He; by simpl in He).
    destruct (index_floorRandom available r H0 H1 Hne) as (t & Ht & Hin).
    exists t. split; [assumption |].
    apply list_elem_of_filter in Hin as [Hnot Hin].
    split; [assumption |]. split; [intros _; by split |].
    intros Hall. exfalso. apply Hnot. by apply Hall.
Qed.

Lemma getRandomMessage_some (env : Env) (g : NoteGenerator) :
  (0 <= random env)%Q → (random env < 1)%Q → messages g ≠ [] →
  ∃ t, fst (getRandomMessage env g) = Some t.
Proof.
  intros H0 H1 Hm. unfold getRandomMessage.
  destruct (hitokotoCache g) as [| text rest].
  - destruct (getLocalMessage_some (random env) g H0 H1 Hm) as (t & Ht & _).
    by exists t.
  - by exists text.
Qed.

(** ** What a call does to the wall *)

Lemma getRandomMessage_wall (env : Env) (g : NoteGenerator) :
  let g' := snd (getRandomMessage env g) in
  notes g' = notes g ∧ noteCount g' = noteCount g ∧ canvas g' = canvas g
  ∧ messages g' = messages g.
Proof.
  unfold getRandomMessage. destruct (hitokotoCache g) as [| text rest].
  - destruct (getLocalMessage_frame (random env) g). by simpl.
  - simpl. destruct (length rest <? 3)%nat; [| by simpl].
    pose proof (fetchFromAPIs_frame env (set_hitokotoCache rest g)) as Hf.
    destruct (fetchFromAPIs env (set_hitokotoCache rest g)) as [newText g'].
    destruct Hf. by simpl in *.
Qed.

Lemma settleRefill_wall (i : nat) (g : NoteGenerator) :
  let g' := settleRefill i g in
  notes g' = notes g ∧ noteCount g' = noteCount g ∧ canvas g' = canvas g
  ∧ messages g' = messages g.
Proof.
  unfold settleRefill. destruct (pendingRefills g !! i) as [o |]; [| by simpl].
  unfold refillCallback. destruct o as [[t |] |]; try by simpl.
  destruct (truthy t); by simpl.
Qed.

(** ** The note counter *)

Lemma isElement_true (e : Elem) (n : Note.t) :
  isElement e n = true ↔ Note.element n = e.
Proof. unfold isElement. by rewrite bool_decide_eq_true. Qed.

Lemma isElement_false (e : Elem) (n : Note.t) :
  isElement e n = false ↔ Note.element n ≠ e.
Proof. unfold isElement. by rewrite bool_decide_eq_false. Qed.

Lemma findIndex_element_None (e : Elem) (l : list Note.t) :
  findIndex (isElement e) l = None ↔ ∀ n, n ∈ l → Note.element n ≠ e.
Proof.
  rewrite findIndex_None. split; intros H n Hn.
  - apply isElement_false. by apply H.
  - apply isElement_false. by apply H.
Qed.

Lemma generateNote_effect (env : Env) (colorRandom : Q) (note : Elem)
    (g : NoteGenerator) :
  match generateNote env colorRandom note g with
  | (Return e, g') =>
      e = note
      ∧ (∃ x y, notes g' = notes g ++ [Note.mk x y note])
      ∧ noteCount g' = (noteCount g + 1)%Z
  | (Throw, g') => notes g' = notes g ∧ noteCount g' = noteCount g
  end.
Proof.
  unfold generateNote.
  pose proof (getRandomMessage_wall env g) as (Hn & Hc & _).
  destruct (getRandomMessage env g) as [message g1]. simpl in Hn, Hc.
  destruct message as [message |]; [| by split].
  destruct (canvas g1) as [c |]; [| by split].
  simpl. rewrite Hn, Hc. repeat split. eauto.
Qed.

Lemma removeNote_found (e : Elem) (g : NoteGenerator) :
  (∃ n, n ∈ notes g ∧ Note.element n = e) →
  ∃ i n, notes g !! i = Some n ∧ Note.element n = e
         ∧ (∀ j m, (j < i)%nat → notes g !! j = Some m → Note.element m ≠ e)
         ∧ notes (removeNote e g) = splice1 i (notes g)
         ∧ length (notes g) = S (length (notes (removeNote e g)))
         ∧ noteCount (removeNote e g) = (noteCount g - 1)%Z.
Proof.
  intros (n & Hin & He). unfold removeNote.
  destruct (findIndex (isElement e) (notes g)) as [i |] eqn:Hf.
  - destruct (findIndex_Some _ _ _ Hf) as (a & Ha & Hp & Hmin).
    exists i, a. simpl.
    split; [assumption |]. split; [by apply isElement_true |].
    split; [intros j m Hj Hm; apply isElement_false; eauto |].
    split; [reflexivity |]. split; [| reflexivity].
    apply length_splice1. eapply lookup_lt_Some; eassumption.
  - exfalso. rewrite findIndex_element_None in Hf. by apply (Hf n).
Qed.

Lemma removeNote_missing (e : Elem) (g : NoteGenerator) :
  (∀ n, n ∈ notes g → Note.element n ≠ e) → removeNote e g = g.
Proof.
  intros H. unfold removeNote.
  apply findIndex_element_None in H. by rewrite H.
Qed.

Lemma updateNotePosition_length (e : Elem) (x y : R) (g : NoteGenerator) :
  length (notes (updateNotePosition e x y g)) = length (notes g)
  ∧ noteCount (updateNotePosition e x y g) = noteCount g.
Proof.
  unfold updateNotePosition.
  destruct (findIndex (isElement e) (notes g)); simpl; [| done].
  by rewrite length_alter.
Qed.

Lemma perform_countInvariant (c : Call) (g : NoteGenerator) :
  countInvariant g → countInvariant (perform c g).
Proof.
  unfold countInvariant. intros Hinv. destruct c; simpl.
  - destruct (fetchFromAPIs_frame env g). congruence.
  - destruct (getRandomMessage_wall env g) as (-> & -> & _). assumption.
  - destruct (settleRefill_wall i g) as (-> & -> & _). assumption.
  - pose proof (generateNote_effect env colorRandom note g) as H.
    destruct (generateNote env colorRandom note g) as [[e |] g']; simpl.
    + destruct H as (_ & (x & y & ->) & ->). rewrite length_app. simpl. lia.
    + destruct H as (-> & ->). assumption.
  - unfold clearAll. destruct (canvas g); simpl; [reflexivity | assumption].
  - destruct (findIndex (isElement noteElement) (notes g)) as [i |] eqn:Hf.
    + destruct (findIndex_Some _ _ _ Hf) as (a & Ha & Hp & _).
      assert (Hex : ∃ n, n ∈ notes g ∧ Note.element n = noteElement).
      { exists a. split; [eapply list_elem_of_lookup_2; eassumption |].
        by apply isElement_true. }
      destruct (removeNote_found noteElement g Hex)
        as (k & n & _ & _ & _ & _ & Hlen & ->). lia.
    + rewrite removeNote_missing; [assumption |].
      by apply findIndex_element_None.
  - destruct (updateNotePosition_length noteElement x y g) as (-> & ->).
    assumption.
  - assumption.
Qed.

Lemma performAll_countInvariant (cs : list Call) (g : NoteGenerator) :
  countInvariant g → countInvariant (performAll cs g).
Proof.
  unfold performAll. revert g.
  induction cs as [| c cs IH]; intros g Hg; simpl; [assumption |].
  apply IH. by apply perform_countInvariant.
Qed.

Lemma generateNote_returns (env : Env) (colorRandom : Q) (note : Elem)
    (g : NoteGenerator) :
  (0 <= random env)%Q → (random env < 1)%Q →
  messages g ≠ [] → canvas g ≠ None →
  fst (generateNote env colorRandom note g) = Return note.
Proof.
  intros H0 H1 Hm Hc. unfold generateNote.
  destruct (getRandomMessage_some env g H0 H1 Hm) as (t & Ht).
  pose proof (getRandomMessage_wall env g) as (_ & _ & Hcv & _).
  destruct (getRandomMessage env g) as [message g1]. simpl in Ht, Hcv.
  subst message. rewrite Hcv. destruct (canvas g); [reflexivity | congruence].
Qed.

(** C9. [noteCount] is the length of [notes] in the object the constructor
    builds and after every call: [generateNote] appends one record and adds
    one to the counter when it returns its note (which it does whenever the
    canvas is set and the message list is not empty) and leaves both as they
    were when it throws; [removeNote] takes out the first record of the
    element and subtracts one exactly when the element is recorded, and
    changes nothing otherwise; [clearAll] returns whenever the canvas is
    set, with the list emptied and the counter at zero. So [getCount] is the
    number of recorded notes in every state in which the counter is the
    length of the list, and after any sequence of calls from such a state:
    it goes up by one with a note that [generateNote] returns, down by one
    with the removal of a recorded element, and is zero after [clearAll].
    The rounds over the sources, stretch by stretch between their awaits,
    and the callbacks of the refills touch neither the list nor the
    counter. *)
Theorem note_count_invariant :
  countInvariant constructor
  ∧ (∀ c g, countInvariant g → countInvariant (perform c g))
  ∧ (∀ cs, getCount (performAll cs constructor)
           = Z.of_nat (length (notes (performAll cs constructor))))
  ∧ (∀ env colorRandom note g,
       match generateNote env colorRandom note g with
       | (Return e, g') =>
           e = note
           ∧ (∃ x y, notes g' = notes g ++ [Note.mk x y note])
           ∧ noteCount g' = (noteCount g + 1)%Z
       | (Throw, g') => notes g' = notes g ∧ noteCount g' = noteCount g
       end)
  ∧ (∀ env colorRandom note g,
       (0 <= random env)%Q → (random env < 1)%Q →
       messages g ≠ [] → canvas g ≠ None →
       fst (generateNote env colorRandom note g) = Return note)
  ∧ (∀ e g,
       (∃ n, n ∈ notes g ∧ Note.element n = e) →
       ∃ i n, notes g !! i = Some n ∧ Note.element n = e
              ∧ (∀ j m, (j < i)%nat → notes g !! j = Some m →
                        Note.element m ≠ e)
              ∧ notes (removeNote e g) = splice1 i (notes g)
              ∧ length (notes g) = S (length (notes (removeNote e g)))
              ∧ noteCount (removeNote e g) = (noteCount g - 1)%Z)
  ∧ (∀ e g, (∀ n, n ∈ notes g → Note.element n ≠ e) → removeNote e g = g)
  ∧ (∀ g, match clearAll g with
          | (Return _, g') => notes g' = [] ∧ noteCount g' = 0%Z
          | (Throw, g') => g' = g
          end)
  ∧ (∀ g, countInvariant g → getCount g = Z.of_nat (length (notes g)))
  ∧ (∀ cs g, countInvariant g →
       getCount (performAll cs g)
       = Z.of_nat (length (notes (performAll cs g))))
  ∧ (∀ g, canvas g ≠ None →
       fst (clearAll g) = Return tt
       ∧ notes (snd (clearAll g)) = []
       ∧ getCount (snd (clearAll g)) = 0%Z)
  ∧ (∀ env colorRandom note g,
       (0 <= random env)%Q → (random env < 1)%Q →
       messages g ≠ [] → canvas g ≠ None →
       length (notes (snd (generateNote env colorRandom note g)))
       = S (length (notes g))
       ∧ getCount (snd (generateNote env colorRandom note g))
         = (getCount g + 1)%Z)
  ∧ (∀ e g, (∃ n, n ∈ notes g ∧ Note.element n = e) →
       getCount (removeNote e g) = (getCount g - 1)%Z)
  ∧ (∀ r g, countInvariant g → countInvariant (snd (Round.start r g)))
  ∧ (∀ env round g,
       countInvariant g → countInvariant (snd (Round.step env round g)))
  ∧ (∀ outcome g, countInvariant g → countInvariant (refillCallback outcome g)).
Proof.
  split; [reflexivity |].
  split; [exact perform_countInvariant |].
  split; [intros cs; by apply performAll_countInvariant |].
  split; [exact generateNote_effect |].
  split; [exact generateNote_returns |].
  split; [exact removeNote_found |].
  split; [exact removeNote_missing |].
  split; [intros g; unfold clearAll; destruct (canvas g); simpl; done |].
  split; [intros g Hg; exact Hg |].
  split; [intros cs g Hg; by apply performAll_countInvariant |].
  split.
  { intros g Hc. unfold clearAll.
    destruct (canvas g); [by simpl | congruence]. }
  split.
  { intros env colorRandom note g H0 H1 Hm Hc.
    pose proof (generateNote_returns env colorRandom note g H0 H1 Hm Hc) as Hr.
    pose proof (generateNote_effect env colorRandom note g) as He.
    destruct (generateNote env colorRandom note g) as [[e |] g'];
      simpl in Hr; [| discriminate].
    destruct He as (_ & (x & y & Hn) & Hk). simpl. unfold getCount.
    split; [| assumption]. rewrite Hn, length_app. simpl. lia. }
  split.
  { intros e g Hex. unfold getCount.
    by destruct (removeNote_found e g Hex) as (i & n & _ & _ & _ & _ & _ & ->). }
  unfold countInvariant.
  split; [intros r g Hg; destruct (start_frame r g); congruence |].
  split; [intros env round g Hg; destruct (step_frame env round g); congruence |].
  intros outcome g Hg. destruct (refillCallback_frame outcome g) as (-> & ->).
  assumption.
Qed.

(** On a canvas of 1200 by 800: a first note is returned and counted, the
    element that was never recorded is not removed, and with two notes
    recorded [getCount] is two and [clearAll] brings it back to zero. *)
Lemma note_count_invariant_witness :
  countInvariant (perform (CallGenerateNote offline 0 7%nat) emptyWall)
  ∧ fst (generateNote offline 0 7%nat emptyWall) = Return 7%nat
  ∧ removeNote 7%nat emptyWall = emptyWall
  ∧ getCount (snd (generateNote offline 0 7%nat emptyWall)) = 1%Z
  ∧ getCount wallOfTwo = 2%Z
  ∧ getCount (performAll [CallRemoveNote 10%nat] wallOfTwo) = 1%Z
  ∧ fst (clearAll wallOfTwo) = Return tt
  ∧ getCount (snd (clearAll wallOfTwo)) = 0%Z.
Proof.
  destruct note_count_invariant
    as (_ & Hstep & _ & _ & Hgen & _ & Hmiss & _ & Hcount & Hall & Hclear
        & Hup & _).
  split; [apply Hstep; reflexivity |].
  split.
  { apply Hgen; simpl; [discriminate | reflexivity | discriminate | discriminate]. }
  split; [apply Hmiss; intros n Hn; inversion Hn |].
  split.
  { destruct (Hup offline 0%Q 7%nat emptyWall) as (_ & ->);
      simpl; [discriminate | reflexivity | discriminate | discriminate |].
    reflexivity. }
  split; [rewrite Hcount; reflexivity |].
  split.
  { rewrite Hall by reflexivity. reflexivity. }
  destruct (Hclear wallOfTwo) as (Hr & _ & Hz); [discriminate |].
  split; assumption.
Defined.

(** ** Dragging a note *)

(** C10. [updateNotePosition] assigns [x] and [y] in the first record of the
    element and nowhere else: that record keeps its element, every record
    of another element and every record at another position is as before,
    the list keeps its length, and no other field of the generator changes
    (the counter, the cache, the seen-set among them). When no record is of
    the element the generator is unchanged. *)
Theorem updateNotePosition_frame (e : Elem) (x y : R) (g : NoteGenerator) :
  let g' := updateNotePosition e x y g in
  (messages g' = messages g ∧ usedMessages g' = usedMessages g
   ∧ noteCount g' = noteCount g ∧ canvas g' = canvas g
   ∧ hitokotoCache g' = hitokotoCache g ∧ usedApiTexts g' = usedApiTexts g
   ∧ apiSources g' = apiSources g ∧ currentApiIndex g' = currentApiIndex g
   ∧ pendingRefills g' = pendingRefills g)
  ∧ length (notes g') = length (notes g)
  ∧ ((∀ n, n ∈ notes g → Note.element n ≠ e) → g' = g)
  ∧ (∀ i n, notes g !! i = Some n → Note.element n = e →
            (∀ j m, (j < i)%nat → notes g !! j = Some m → Note.element m ≠ e) →
            notes g' = <[i := Note.mk x y (Note.element n)]> (notes g)
            ∧ notes g' !! i = Some (Note.mk x y e)
            ∧ ∀ j, j ≠ i → notes g' !! j = notes g !! j)
  ∧ (∀ j m, notes g !! j = Some m → Note.element m ≠ e →
            notes g' !! j = Some m).
Proof.
  intros g'. subst g'. unfold updateNotePosition.
  destruct (findIndex (isElement e) (notes g)) as [k |] eqn:Hf.
  - destruct (findIndex_Some _ _ _ Hf) as (a & Ha & Hp & Hmin).
    apply isElement_true in Hp. simpl.
    split; [done |]. split; [by rewrite length_alter |].
    split.
    { intros Hno. exfalso. apply (Hno a); [| assumption].
      eapply list_elem_of_lookup_2; eassumption. }
    split.
    + intros i n Hi Hn Hfirst.
      assert (i = k) as ->.
      { destruct (Nat.lt_trichotomy i k) as [Hlt | [Heq | Hgt]]; [| assumption |].
        - specialize (Hmin i n Hlt Hi). apply isElement_false in Hmin. congruence.
        - exfalso. by apply (Hfirst k a). }
      assert (n = a) as -> by congruence.
      assert (Hk : (k < length (notes g))%nat) by (eapply lookup_lt_Some; eassumption).
      assert (Heq : alter (λ note, Note.mk x y (Note.element note)) k (notes g)
                    = <[k := Note.mk x y (Note.element a)]> (notes g)).
      { apply list_eq. intros j. destruct (decide (j = k)) as [-> | Hne].
        - rewrite list_lookup_alter_eq, Ha. simpl.
          by rewrite list_lookup_insert_eq.
        - rewrite list_lookup_alter_ne by done.
          by rewrite list_lookup_insert_ne. }
      split; [assumption |]. rewrite Heq. split.
      * rewrite list_lookup_insert_eq by assumption. by rewrite Hp.
      * intros j Hj. by rewrite list_lookup_insert_ne.
    + intros j m Hj Hm. destruct (decide (j = k)) as [-> | Hne].
      * congruence.
      * by rewrite list_lookup_alter_ne.
  - pose proof (proj1 (findIndex_element_None e (notes g)) Hf) as Hno.
    split; [done |]. split; [done |]. split; [done |]. split.
    + intros i n Hi Hn _. exfalso. apply (Hno n); [| assumption].
      eapply list_elem_of_lookup_2; eassumption.
    + intros j m Hj _. assumption.
Qed.

(** A drag of the second of two notes to the point (5, 6), and a drag of an
    element that is not on the wall. *)
Lemma updateNotePosition_frame_witness :
  notes (updateNotePosition 11%nat 5 6 twoNotes)
    = [Note.mk 1 2 10%nat; Note.mk 5 6 11%nat]
  ∧ updateNotePosition 12%nat 5 6 twoNotes = twoNotes.
Proof.
  destruct (updateNotePosition_frame 11%nat 5 6 twoNotes)
    as (_ & _ & _ & Hupd & _).
  destruct (updateNotePosition_frame 12%nat 5 6 twoNotes)
    as (_ & _ & Hmiss & _).
  split.
  - destruct (Hupd 1%nat (Note.mk 3 4 11%nat)) as (Heq & _);
      [reflexivity | reflexivity | | exact Heq].
    intros [| j] m Hj Hm; [| lia]. injection Hm as <-. simpl. lia.
  - apply Hmiss. intros n Hn.
    apply elem_of_cons in Hn as [-> | Hn]; [simpl; lia |].
    apply elem_of_cons in Hn as [-> | Hn]; [simpl; lia | inversion Hn].
Defined.

(** ** The prefetch cache *)




Lemma getRandomMessage_cached (env : Env) (g : NoteGenerator)
    (text : jsstring) (rest : list jsstring) :
  hitokotoCache g = text :: rest →
  fst (getRandomMessage env g) = Some text
  ∧ hitokotoCache (snd (getRandomMessage env g)) = rest.
Proof.
  intros Hc. unfold getRandomMessage. rewrite Hc. simpl.
  split; [reflexivity |].
  destruct (length rest <? 3)%nat; [| reflexivity].
  pose proof (fetchFromAPIs_frame env (set_hitokotoCache rest g)) as Hf.
  destruct (fetchFromAPIs env (set_hitokotoCache rest g)) as [newText g'].
  destruct Hf. by simpl in *.
Qed.



(** ** One round over the sources *)

Lemma set_currentApiIndex_same (g : NoteGenerator) :
  set_currentApiIndex (currentApiIndex g) g = g.
Proof. by destruct g. Qed.

Lemma getLocalMessage_cursor (r : Q) (v : nat) (g : NoteGenerator) :
  getLocalMessage r (set_currentApiIndex v g)
  = (fst (getLocalMessage r g), set_currentApiIndex v (snd (getLocalMessage r g))).
Proof.
  unfold getLocalMessage. simpl.
  by destruct (length _ =? 0)%nat.
Qed.

Lemma sourceText_cursor (env : Env) (source : ApiSource.t) (v : nat)
    (g : NoteGenerator) :
  sourceText env source (set_currentApiIndex v g)
  = (fst (sourceText env source g),
     set_currentApiIndex v (snd (sourceText env source g))).
Proof.
  unfold sourceText. repeat case_bool_decide; try reflexivity.
  rewrite getLocalMessage_cursor.
  by destruct (getLocalMessage (random env) g).
Qed.

Lemma accept_cursor (text : option jsstring) (v : nat) (g : NoteGenerator) :
  accept text (set_currentApiIndex v g)
  = (λ '(t, g'), (t, set_currentApiIndex v g')) <$> accept text g.
Proof.
  unfold accept. destruct text as [t |]; [| reflexivity]. simpl.
  by destruct (truthy t && _).
Qed.

Lemma firstAccepted_cursor (env : Env) (order : list ApiSource.t) (v : nat)
    (g : NoteGenerator) :
  firstAccepted env order (set_currentApiIndex v g)
  = (let '(r, g', k) := firstAccepted env order g in
     (r, set_currentApiIndex v g', k)).
Proof.
  revert g. induction order as [| source order IH]; intros g; simpl.
  - reflexivity.
  - destruct (ApiSource.enabled source).
    + rewrite sourceText_cursor.
      destruct (sourceText env source g) as [[text |] g1]; simpl.
      * rewrite accept_cursor. destruct (accept text g1) as [[t g2] |]; simpl.
        -- reflexivity.
        -- rewrite IH. by destruct (firstAccepted env order g1) as [[r g'] k].
      * rewrite IH. by destruct (firstAccepted env order g1) as [[r g'] k].
    + rewrite IH. by destruct (firstAccepted env order g) as [[r g'] k].
Qed.

Lemma firstAccepted_sources (env : Env) (order : list ApiSource.t)
    (g : NoteGenerator) :
  apiSources (firstAccepted env order g).1.2 = apiSources g.
Proof.
  revert g. induction order as [| source order IH]; intros g; simpl.
  - reflexivity.
  - assert (Hnext : ∀ g1, apiSources g1 = apiSources g →
      apiSources (let '(r, g', k) := firstAccepted env order g1 in (r, g', S k)).1.2
      = apiSources g).
    { intros g1 H1. specialize (IH g1).
      destruct (firstAccepted env order g1) as [[r g'] k]. simpl in *. congruence. }
    destruct (ApiSource.enabled source); [| by apply Hnext].
    pose proof (sourceText_frame env source g) as Hs.
    destruct (sourceText env source g) as [[text |] g1]; simpl in Hs.
    + destruct (accept text g1) as [[t g2] |] eqn:Ha.
      * simpl. apply accept_frame in Ha. destruct Hs, Ha. congruence.
      * apply Hnext. by destruct Hs.
    + apply Hnext. by destruct Hs.
Qed.

Lemma rotate_next {A : Type} (l : list A) (c : nat) (a : A) :
  l !! c = Some a →
  rotate c l = a :: (drop (S c) l ++ take c l)
  ∧ rotate ((c + 1) `mod` length l) l = (drop (S c) l ++ take c l) ++ [a].
Proof.
  intros Hc.
  assert (Hlt : (c < length l)%nat) by (eapply lookup_lt_Some; eassumption).
  unfold rotate. split.
  - rewrite Nat.mod_small by assumption.
    by rewrite (drop_S l a c Hc).
  - rewrite Nat.Div0.mod_mod.
    destruct (decide (c + 1 = length l)%nat) as [Heq | Hne].
    + rewrite Heq, Nat.Div0.mod_same.
      change (drop 0 l) with l. change (take 0 l) with (@nil A).
      rewrite (drop_ge l (S c)) by lia. simpl.
      rewrite <- (take_S_r l c a Hc).
      replace (S c) with (length l) by lia.
      by rewrite firstn_all, app_nil_r.
    + rewrite Nat.mod_small by lia.
      replace (c + 1)%nat with (S c) by lia.
      rewrite (take_S_r l c a Hc). by rewrite app_assoc.
Qed.

Lemma fetchLoop_firstAccepted (env : Env) (fuel : nat) (g : NoteGenerator) :
  (currentApiIndex g < length (apiSources g))%nat →
  (fuel <= length (apiSources g))%nat →
  fetchLoop env fuel g
  = (let '(r, g', k) :=
       firstAccepted env
         (take fuel (rotate (currentApiIndex g) (apiSources g))) g in
     (Return r,
      set_currentApiIndex
        ((currentApiIndex g + k) `mod` length (apiSources g))%nat g')).
Proof.
  revert g. induction fuel as [| fuel IH]; intros g Hc Hf.
  - simpl. rewrite Nat.add_0_r, Nat.mod_small by assumption.
    by rewrite set_currentApiIndex_same.
  - set (c := currentApiIndex g). set (l := apiSources g).
    set (n := length l).
    destruct (lookup_lt_is_Some_2 l c Hc) as [source Hs].
    destruct (rotate_next l c source Hs) as (Hr1 & Hr2).
    set (g1 := set_currentApiIndex ((c + 1) `mod` n)%nat g).
    assert (Hn : (0 < n)%nat) by (unfold n, l, c in *; lia).
    assert (Hc1 : (currentApiIndex g1 < length (apiSources g1))%nat).
    { simpl. apply Nat.mod_upper_bound. fold l n. lia. }
    assert (Htake : take fuel (rotate ((c + 1) `mod` n) l)
                    = take fuel (drop (S c) l ++ take c l)).
    { fold n in Hr2. rewrite Hr2. apply take_app_le.
      rewrite length_app, length_drop, length_take. unfold n, l, c in *. lia. }
    (* the rest of the round, from any state that has the sources of [g] *)
    assert (Hnext : ∀ g2 : NoteGenerator,
      apiSources g2 = l →
      fetchLoop env fuel (set_currentApiIndex ((c + 1) `mod` n)%nat g2)
      = (let '(r, g', k) :=
           (let '(r, g', k) :=
              firstAccepted env (take fuel (drop (S c) l ++ take c l)) g2 in
            (r, g', S k)) in
         (Return r, set_currentApiIndex ((c + k) `mod` n)%nat g'))).
    { intros g2 Hl2.
      rewrite IH; simpl; rewrite ?Hl2; fold n;
        [| apply Nat.mod_upper_bound; lia | unfold n, l in *; lia].
      rewrite Htake, firstAccepted_cursor.
      pose proof (firstAccepted_sources env
                    (take fuel (drop (S c) l ++ take c l)) g2) as Hsrc.
      destruct (firstAccepted env _ g2) as [[r g'] k]. simpl in Hsrc.
      f_equal. destruct g'. simpl in *. unfold set_currentApiIndex. simpl.
      f_equal. rewrite Nat.Div0.add_mod_idemp_l. f_equal. lia. }
    change (fetchLoop env (S fuel) g) with
      (match l !! c with
       | None => (Throw, g1)
       | Some source =>
           if negb (ApiSource.enabled source) then fetchLoop env fuel g1
           else
             let '(text, g2) := sourceText env source g1 in
             match text with
             | Throw => fetchLoop env fuel g2
             | Return text =>
                 match accept text g2 with
                 | Some (t, g3) => (Return (Some t), g3)
                 | None => fetchLoop env fuel g2
                 end
             end
       end).
    rewrite Hs. fold c l n. rewrite Hr1. simpl.
    destruct (ApiSource.enabled source) eqn:He; simpl.
    + unfold g1. rewrite sourceText_cursor.
      pose proof (sourceText_frame env source g) as Hfr.
      destruct (sourceText env source g) as [[text |] g2]; simpl in *.
      * rewrite accept_cursor.
        destruct (accept text g2) as [[t g3] |] eqn:Ha; simpl.
        -- reflexivity.
        -- apply Hnext. by destruct Hfr.
      * apply Hnext. by destruct Hfr.
    + by apply Hnext.
Qed.

(** ** A round with its awaits, run alone *)

Lemma finish_settled (env : Env) (fuel : nat)
    (res : completion (option jsstring)) (g : NoteGenerator) :
  Round.finish env fuel (Round.Settled res) g = (Round.Settled res, g).
Proof. induction fuel as [| fuel IH]; [reflexivity | exact IH]. Qed.

Lemma finish_advance (env : Env) (fuel i k : nat) (g : NoteGenerator) :
  (i + fuel = length (apiSources g))%nat → (fuel <= k)%nat →
  (let '(round, g') := Round.advance (random env) fuel i g in
   Round.finish env k round g')
  = (Round.Settled (fst (fetchLoop env fuel g)), snd (fetchLoop env fuel g)).
Proof.
  revert i k g. induction fuel as [| fuel IH]; intros i k g Hlen Hk.
  - simpl. apply finish_settled.
  - cbn [Round.advance fetchLoop].
    set (g1 := set_currentApiIndex _ g).
    destruct (apiSources g !! currentApiIndex g) as [source |];
      [| apply finish_settled].
    assert (Hnext : ∀ g2 k', apiSources g2 = apiSources g → (fuel <= k')%nat →
      (let '(round, g') := Round.advance (random env) fuel (S i) g2 in
       Round.finish env k' round g')
      = (Round.Settled (fst (fetchLoop env fuel g2)),
         snd (fetchLoop env fuel g2))).
    { intros g2 k' Hs Hk'. apply IH; [rewrite Hs; lia | assumption]. }
    destruct (ApiSource.enabled source); cbn [negb];
      [| apply Hnext; [reflexivity | lia]].
    unfold sourceText.
    destruct k as [| k']; [lia |].
    assert (Hfuel : (length (apiSources g1) - S i = fuel)%nat)
      by (simpl; lia).
    case_bool_decide as Hh.
    { cbn [Round.finish Round.step]. unfold Round.resume. rewrite Hfuel.
      destruct (fetchHitokoto (hitokotoReply env)) as [text |].
      - destruct (accept (Some text) g1) as [[t g3] |].
        + apply finish_settled.
        + apply Hnext; [reflexivity | lia].
      - apply Hnext; [reflexivity | lia]. }
    case_bool_decide as Hj.
    { cbn [Round.finish Round.step]. unfold Round.resume. rewrite Hfuel.
      destruct (fetchJinrishici (jinrishiciReply env)) as [text |].
      - destruct (accept (Some text) g1) as [[t g3] |].
        + apply finish_settled.
        + apply Hnext; [reflexivity | lia].
      - apply Hnext; [reflexivity | lia]. }
    case_bool_decide as Hl.
    { pose proof (getLocalMessage_frame (random env) g1) as Hfr.
      destruct (getLocalMessage (random env) g1) as [text g2]. simpl in Hfr.
      destruct (accept text g2) as [[t g3] |].
      - apply finish_settled.
      - apply Hnext; [by destruct Hfr | lia]. }
    cbn [accept]. apply Hnext; [reflexivity | lia].
Qed.

Lemma runAlone_fetchFromAPIs (env : Env) (g : NoteGenerator) :
  Round.runAlone env g
  = (Round.Settled (fst (fetchFromAPIs env g)), snd (fetchFromAPIs env g)).
Proof.
  unfold Round.runAlone, Round.start, fetchFromAPIs.
  apply (finish_advance env (length (apiSources g)) 0); lia.
Qed.

Lemma fetchFromAPIs_fetchFromSources (env : Env) (g : NoteGenerator) :
  (currentApiIndex g < length (apiSources g))%nat →
  fetchFromAPIs env g
  = (Return (fst (fetchFromSources env g)), snd (fetchFromSources env g)).
Proof.
  intros Hlt. unfold fetchFromAPIs, fetchFromSources.
  rewrite fetchLoop_firstAccepted by (assumption || lia).
  rewrite <- (length_rotate (apiSources g) (currentApiIndex g)) at 1.
  rewrite firstn_all.
  by destruct (firstAccepted env _ g) as [[r g'] k].
Qed.

(** C1, as the code has it. With an empty cache [getRandomMessage] is the
    local pick [getLocalMessage] and nothing more: the replies of the remote
    sources do not matter to it and the cursor stays where it is. The round
    over the sources is [fetchFromAPIs], which runs for the cache only. A
    round that no other round overlaps, from a cursor inside the list,
    visits the sources in the order that starts at the cursor, skips the
    disabled ones, tries the two remote sources and the local one alike,
    returns the first accepted text, and leaves the cursor past the sources
    it visited. Rounds under way together share the cursor across their
    awaits: of two rounds called one right after the other, the second can
    miss the local source and return [null] where, run alone, it finds a
    text. *)
Theorem empty_cache_local_pick (env : Env) (g : NoteGenerator) :
  (hitokotoCache g = [] →
   getRandomMessage env g = getLocalMessage (random env) g
   ∧ currentApiIndex (snd (getRandomMessage env g)) = currentApiIndex g
   ∧ ∀ h j, getRandomMessage (mkEnv h j (random env)) g
            = getRandomMessage env g)
  ∧ ((currentApiIndex g < length (apiSources g))%nat →
     Round.runAlone env g
     = (Round.Settled (Return (fst (fetchFromSources env g))),
        snd (fetchFromSources env g)))
  ∧ Round.runAlone env g
    = (Round.Settled (fst (fetchFromAPIs env g)), snd (fetchFromAPIs env g))
  ∧ (let '(g1, roundB, _) := overlappedRounds in
     roundB = Round.Settled (Return None)
     ∧ fst (Round.runAlone offline g1) = Round.Settled (Return (Some [97%N]))).
Proof.
  split; [| split; [| split]].
  - intros Hc. unfold getRandomMessage. rewrite Hc.
    split; [reflexivity |]. split; [| reflexivity].
    unfold getLocalMessage. by destruct (length _ =? 0)%nat.
  - intros Hlt. rewrite runAlone_fetchFromAPIs.
    by rewrite fetchFromAPIs_fetchFromSources.
  - apply runAlone_fetchFromAPIs.
  - vm_compute. by split.
Qed.

(** One local message, an empty cache and the hitokoto source answering:
    the call is the local pick, and a round run alone from cursor 0 agrees
    with [fetchFromSources]. *)
Lemma empty_cache_local_pick_witness :
  getRandomMessage hitokotoAnswers oneMessage = getLocalMessage 0 oneMessage
  ∧ Round.runAlone hitokotoAnswers oneMessage
    = (Round.Settled (Return (fst (fetchFromSources hitokotoAnswers oneMessage))),
       snd (fetchFromSources hitokotoAnswers oneMessage)).
Proof.
  destruct (empty_cache_local_pick hitokotoAnswers oneMessage)
    as (Hlocal & Hround & _).
  split.
  - by destruct (Hlocal eq_refl) as (-> & _).
  - apply Hround. simpl. lia.
Defined.

(** C1 as stated fails. The cache is empty, the hitokoto source is enabled,
    first in the round and answers with a text never seen; the round over
    the sources would return that text and move the cursor to 1, but the
    call returns the local message and leaves the cursor at 0. *)
Lemma empty_cache_claim_fails :
  hitokotoCache oneMessage = []
  ∧ fst (fetchFromSources hitokotoAnswers oneMessage) = Some [72%N]
  ∧ currentApiIndex (snd (fetchFromSources hitokotoAnswers oneMessage)) = 1%nat
  ∧ fst (getRandomMessage hitokotoAnswers oneMessage) = Some [109%N]
  ∧ currentApiIndex (snd (getRandomMessage hitokotoAnswers oneMessage)) = 0%nat
  ∧ fst (getRandomMessage hitokotoAnswers oneMessage)
    ≠ fst (fetchFromSources hitokotoAnswers oneMessage).
Proof.
  repeat split; try (vm_compute; reflexivity).
  vm_compute. discriminate.
Qed.

(** ** Random placement *)

Lemma tooClose_true (placed : list Note.t) (p : Point.t) :
  tooClose placed p = true
  ↔ ∃ note, note ∈ placed ∧ (distanceTo note p < minDistance)%R.
Proof.
  induction placed as [| a placed IH]; simpl.
  - split; [discriminate | intros (n & Hn & _); inversion Hn].
  - fold (distanceTo a p).
    destruct (Rlt_dec (distanceTo a p) minDistance) as [Hlt | Hge]; simpl.
    + split; [intros _ | reflexivity]. exists a. split; [constructor | assumption].
    + rewrite IH. split.
      * intros (n & Hn & Hd). exists n. split; [by constructor | assumption].
      * intros (n & Hn & Hd). apply elem_of_cons in Hn as [-> | Hn].
        -- contradiction.
        -- eauto.
Qed.

Lemma tooClose_false (placed : list Note.t) (p : Point.t) :
  tooClose placed p = false ↔ separated placed p.
Proof.
  unfold separated. split.
  - intros Hf note Hn. apply Rnot_lt_le. intros Hlt.
    assert (Ht : tooClose placed p = true) by (apply tooClose_true; eauto).
    congruence.
  - intros Hs. destruct (tooClose placed p) eqn:Ht; [| reflexivity].
    apply tooClose_true in Ht as (n & Hn & Hd).
    specialize (Hs n Hn). lra.
Qed.

Section RandomPosition.
Variable canvasRect : Canvas.t.
Variable placed : list Note.t.
Variables noteWidth noteHeight : R.
Variable rnd : nat → R.

Let sample := sampleAt canvasRect noteWidth noteHeight rnd.
Let loop := placeLoop canvasRect placed noteWidth noteHeight rnd.

Lemma placeLoop_0 (attempts : nat) : loop 0%nat attempts = sample attempts.
Proof. reflexivity. Qed.

Lemma placeLoop_S (fuel attempts : nat) :
  loop (S fuel) attempts
  = if tooClose placed (sample attempts)
    then loop fuel (S attempts) else sample attempts.
Proof. reflexivity. Qed.

(** The loop returns the first separated sample among the [fuel] it
    tests, and the sample that follows them when there is none. *)
Lemma placeLoop_first (fuel attempts : nat) :
  (∃ k, (k < fuel)%nat
        ∧ (∀ j, (j < k)%nat → ¬ separated placed (sample (attempts + j)%nat))
        ∧ separated placed (sample (attempts + k)%nat)
        ∧ loop fuel attempts = sample (attempts + k)%nat)
  ∨ ((∀ j, (j < fuel)%nat → ¬ separated placed (sample (attempts + j)%nat))
     ∧ loop fuel attempts = sample (attempts + fuel)%nat).
Proof.
  revert attempts.
  induction fuel as [| fuel IH]; intros attempts.
  - right. split; [intros j Hj; lia |].
    by rewrite placeLoop_0, Nat.add_0_r.
  - rewrite placeLoop_S.
    destruct (tooClose placed (sample attempts)) eqn:Ht.
    + assert (Hno : ¬ separated placed (sample attempts)).
      { intros Hs. apply tooClose_false in Hs. congruence. }
      destruct (IH (S attempts)) as [(k & Hk & Hbefore & Hsep & Heq) | (Hall & Heq)].
      * left. exists (S k). split; [lia |].
        replace (attempts + S k)%nat with (S attempts + k)%nat by lia.
        split; [| by split].
        intros [| j] Hj; [by rewrite Nat.add_0_r |].
        replace (attempts + S j)%nat with (S attempts + j)%nat by lia.
        apply Hbefore. lia.
      * right. replace (attempts + S fuel)%nat with (S attempts + fuel)%nat by lia.
        split; [| assumption].
        intros [| j] Hj; [by rewrite Nat.add_0_r |].
        replace (attempts + S j)%nat with (S attempts + j)%nat by lia.
        apply Hall. lia.
    + apply tooClose_false in Ht.
      left. exists 0%nat. rewrite Nat.add_0_r.
      split; [lia |]. split; [intros j Hj; lia |].
      split; [assumption | reflexivity].
Qed.

Lemma sample_withinPadding (k : nat) :
  (∀ i, (0 <= rnd i < 1)%R) →
  (0 <= Canvas.width canvasRect - noteWidth - 2 * padding)%R →
  (0 <= Canvas.height canvasRect - noteHeight - 2 * padding)%R →
  withinPadding canvasRect noteWidth noteHeight (sample k).
Proof.
  intros Hr Hw Hh. subst sample.
  unfold withinPadding, sampleAt, samplePoint. cbn [Point.x Point.y].
  pose proof (Hr (2 * k)%nat) as Hx. pose proof (Hr (2 * k + 1)%nat) as Hy.
  split; split; nra.
Qed.

End RandomPosition.

(** C4, as the code has it. When one of the 30 attempts samples a point
    that keeps 160 pixels from every recorded note, [getRandomPosition]
    returns the first such sample, so the point it accepts within the budget
    is at least 160 pixels away from every recorded note. When none does, it
    draws one more sample after the loop and returns it without testing it.
    On a surface that leaves room for the note inside the
    padding (width at least noteWidth + 2·20, height at least
    noteHeight + 2·20) the point returned lies within the padded bounds. *)
Theorem random_position_separated_or_last (canvasRect : Canvas.t)
    (placed : list Note.t) (noteWidth noteHeight : R) (rnd : nat → R) :
  let p := getRandomPosition canvasRect placed noteWidth noteHeight rnd in
  let sample := sampleAt canvasRect noteWidth noteHeight rnd in
  ((∃ k, (k < maxAttempts)%nat ∧ separated placed (sample k)) →
   separated placed p
   ∧ ∃ k, (k < maxAttempts)%nat ∧ p = sample k ∧ separated placed (sample k)
          ∧ ∀ j, (j < k)%nat → ¬ separated placed (sample j))
  ∧ ((∀ k, (k < maxAttempts)%nat → ¬ separated placed (sample k)) →
     p = sample maxAttempts)
  ∧ ((∀ i, (0 <= rnd i < 1)%R) →
     (0 <= Canvas.width canvasRect - noteWidth - 2 * padding)%R →
     (0 <= Canvas.height canvasRect - noteHeight - 2 * padding)%R →
     withinPadding canvasRect noteWidth noteHeight p).
Proof.
  intros p sample. subst p sample. unfold getRandomPosition.
  pose proof (placeLoop_first canvasRect placed noteWidth noteHeight rnd
                maxAttempts 0) as Hfirst.
  simpl Nat.add in Hfirst.
  split; [| split].
  - intros (k0 & Hk0 & Hs0).
    destruct Hfirst as [(k & Hk & Hbefore & Hsep & Heq) | (Hall & _)].
    + rewrite Heq. split; [assumption |]. exists k. by repeat split.
    + exfalso. by apply (Hall k0).
  - intros Hnone.
    destruct Hfirst as [(k & Hk & _ & Hsep & _) | (_ & Heq)]; [| assumption].
    exfalso. by apply (Hnone k).
  - intros Hr Hw Hh.
    destruct Hfirst as [(k & _ & _ & _ & ->) | (_ & ->)];
      by apply sample_withinPadding.
Qed.

(** On the wide surface with every draw equal to 1/2: an empty wall accepts
    the first sample, which is within the padded bounds; with every draw
    equal to 0 and a note recorded at (20, 20) all 30 attempts fall on that
    note and the sample drawn after the loop is returned. *)
Lemma random_position_separated_or_last_witness :
  separated [] (getRandomPosition wideCanvas [] 100 100 (λ _, (1 / 2)%R))
  ∧ getRandomPosition wideCanvas [Note.mk 20 20 0%nat] 100 100 (λ _, 0%R)
    = sampleAt wideCanvas 100 100 (λ _, 0%R) maxAttempts
  ∧ withinPadding wideCanvas 100 100
      (getRandomPosition wideCanvas [] 100 100 (λ _, (1 / 2)%R)).
Proof.
  split; [| split].
  - apply (random_position_separated_or_last wideCanvas [] 100 100
             (λ _, (1 / 2)%R)).
    exists 0%nat. split; [unfold maxAttempts; lia |].
    intros note Hn. inversion Hn.
  - apply (random_position_separated_or_last wideCanvas
             [Note.mk 20 20 0%nat] 100 100 (λ _, 0%R)).
    intros k _ Hsep.
    specialize (Hsep (Note.mk 20 20 0%nat) ltac:(constructor)).
    unfold distanceTo, sampleAt, samplePoint, minDistance, padding in Hsep.
    cbn [Note.x Note.y Point.x Point.y] in Hsep.
    replace ((20 - (20 + 0 * (Canvas.width wideCanvas - 100 - 20 * 2)))
             * (20 - (20 + 0 * (Canvas.width wideCanvas - 100 - 20 * 2)))
             + (20 - (20 + 0 * (Canvas.height wideCanvas - 100 - 20 * 2)))
               * (20 - (20 + 0 * (Canvas.height wideCanvas - 100 - 20 * 2))))%R
      with 0%R in Hsep by ring.
    rewrite sqrt_0 in Hsep. lra.
  - apply (random_position_separated_or_last wideCanvas [] 100 100
             (λ _, (1 / 2)%R)).
    + intros i. lra.
    + unfold padding. simpl. lra.
    + unfold padding. simpl. lra.
Defined.

Lemma sampleAt_corner (k : nat) :
  (k < maxAttempts)%nat →
  sampleAt wideCanvas 100 100 zerosThenHalf k = Point.mk 20 20.
Proof.
  unfold maxAttempts. intros Hk.
  unfold sampleAt, samplePoint, zerosThenHalf, padding.
  destruct (Nat.ltb_spec (2 * k) 60); [| lia].
  destruct (Nat.ltb_spec (2 * k + 1) 60); [| lia].
  f_equal; ring.
Qed.

Lemma corner_not_separated :
  ¬ separated cornerNote (Point.mk 20 20).
Proof.
  intros Hsep. specialize (Hsep (Note.mk 20 20 0%nat) ltac:(constructor)).
  unfold distanceTo, minDistance in Hsep.
  cbn [Note.x Note.y Point.x Point.y] in Hsep.
  replace ((20 - 20) * (20 - 20) + (20 - 20) * (20 - 20))%R with 0%R in Hsep
    by ring.
  rewrite sqrt_0 in Hsep. lra.
Qed.

(** C4 as stated fails in two places. On the narrow surface, 120 pixels
    wide, a note 100 pixels wide and every draw equal to 1/2, the wall being
    empty, the first sample is accepted with x = 10, left of the padding of
    20: the point returned is not within the padded bounds. And on the wide
    surface, when the 30 attempts all fall on the recorded note, the point
    returned is not the point of the last attempt, (20, 20), but a point
    drawn afresh after the loop, (550, 350). *)
Lemma random_position_claim_fails :
  (Point.x (getRandomPosition narrowCanvas [] 100 100 (λ _, (1 / 2)%R)) = 10%R
   ∧ ¬ withinPadding narrowCanvas 100 100
         (getRandomPosition narrowCanvas [] 100 100 (λ _, (1 / 2)%R)))
  ∧ ((∀ k, (k < maxAttempts)%nat →
           ¬ separated cornerNote (sampleAt wideCanvas 100 100 zerosThenHalf k))
     ∧ sampleAt wideCanvas 100 100 zerosThenHalf (maxAttempts - 1)
       = Point.mk 20 20
     ∧ getRandomPosition wideCanvas cornerNote 100 100 zerosThenHalf
       = Point.mk 550 350).
Proof.
  split.
  - assert (Hx : Point.x (getRandomPosition narrowCanvas [] 100 100
                            (λ _, (1 / 2)%R)) = 10%R).
    { unfold getRandomPosition, maxAttempts. rewrite placeLoop_S.
      cbn [tooClose existsb]. unfold sampleAt, samplePoint, padding.
      cbn [Point.x narrowCanvas Canvas.width]. lra. }
    split; [assumption |].
    unfold withinPadding. rewrite Hx. unfold padding. intros [[H _] _]. lra.
  - assert (Hall : ∀ k, (k < maxAttempts)%nat →
             ¬ separated cornerNote
                 (sampleAt wideCanvas 100 100 zerosThenHalf k)).
    { intros k Hk. rewrite sampleAt_corner by assumption.
      apply corner_not_separated. }
    split; [assumption |].
    split; [apply sampleAt_corner; unfold maxAttempts; lia |].
    unfold getRandomPosition.
    destruct (placeLoop_first wideCanvas cornerNote 100 100 zerosThenHalf
                maxAttempts 0)
      as [(k & Hk & _ & Hsep & _) | (_ & ->)].
    + exfalso. by apply (Hall k).
    + unfold sampleAt, samplePoint, zerosThenHalf, padding, maxAttempts.
      cbn [Nat.add Nat.mul Nat.ltb Nat.leb wideCanvas Canvas.width Canvas.height].
      f_equal; lra.
Qed.

(** ** Repeats and the local fallback *)

(** What the direct local pick does to the object: nothing, as long as a
    message is unseen. The text it returns is not recorded. *)
Lemma getRandomMessage_not_recorded (env : Env) (g : NoteGenerator) :
  hitokotoCache g = [] →
  (∃ m, m ∈ messages g ∧ m ∉ usedApiTexts g) →
  snd (getRandomMessage env g) = g.
Proof.
  intros Hc (m & Hm & Hnot). unfold getRandomMessage, getLocalMessage.
  rewrite Hc.
  destruct (Nat.eqb_spec
              (length (filter (λ msg, msg ∉ usedApiTexts g) (messages g))) 0)
    as [He | He]; [| reflexivity].
  exfalso. apply nil_length_inv in He.
  assert (Hin : m ∈ filter (λ msg, msg ∉ usedApiTexts g) (messages g))
    by (apply list_elem_of_filter; by split).
  rewrite He in Hin. inversion Hin.
Qed.

(** C3 at its failing input. The local list holds the two messages "a" and
    "b", the cache is empty and nothing has been seen. Two calls in a row,
    [Math.random()] giving 0 both times, return "a" and "a" again: the
    first call leaves the seen-set empty, so the second pick excludes
    nothing. *)
Theorem local_pick_repeats :
  length (messages twoMessages) = 2%nat
  ∧ fst (getRandomMessage offline twoMessages) = Some [97%N]
  ∧ snd (getRandomMessage offline twoMessages) = twoMessages
  ∧ usedApiTexts (snd (getRandomMessage offline twoMessages)) = ∅
  ∧ fst (getRandomMessage offline (snd (getRandomMessage offline twoMessages)))
    = Some [97%N].
Proof.
  assert (Hs : snd (getRandomMessage offline twoMessages) = twoMessages).
  { apply getRandomMessage_not_recorded; [reflexivity |].
    exists [97%N]. split; [constructor | apply not_elem_of_empty]. }
  rewrite Hs. repeat split; vm_compute; reflexivity.
Qed.

(** * Further properties of the aggregator *)

Lemma allSeen_transfer (g g' : NoteGenerator) :
  messages g' = messages g → usedApiTexts g' = usedApiTexts g →
  allSeen g' → allSeen g.
Proof. unfold allSeen. intros -> ->. done. Qed.

Lemma getLocalMessage_used (r : Q) (g : NoteGenerator) :
  (snd (getLocalMessage r g) = g
   ∧ ∀ t, fst (getLocalMessage r g) = Some t →
          t ∈ messages g ∧ t ∉ usedApiTexts g)
  ∨ (snd (getLocalMessage r g) = set_usedApiTexts ∅ g ∧ allSeen g
     ∧ ∀ t, fst (getLocalMessage r g) = Some t → t ∈ messages g).
Proof.
  unfold getLocalMessage.
  set (available := filter (λ msg, msg ∉ usedApiTexts g) (messages g)).
  destruct (Nat.eqb_spec (length available) 0) as [He | He]; simpl.
  - right. split; [reflexivity |]. apply nil_length_inv in He. split.
    + intros m Hm. destruct (decide (m ∈ usedApiTexts g)) as [Hin | Hnot];
        [assumption |].
      assert (Hav : m ∈ available) by (apply list_elem_of_filter; by split).
      rewrite He in Hav. inversion Hav.
    + intros t Ht. unfold index in Ht.
      destruct (0 <=? _)%Z; [| discriminate].
      eapply list_elem_of_lookup_2; eassumption.
  - left. split; [reflexivity |]. intros t Ht. unfold index in Ht.
    destruct (0 <=? _)%Z; [| discriminate].
    apply list_elem_of_lookup_2 in Ht.
    apply list_elem_of_filter in Ht as [Hnot Hin]. by split.
Qed.


Lemma accept_Some (text : option jsstring) (g : NoteGenerator)
    (t : jsstring) (g' : NoteGenerator) :
  accept text g = Some (t, g') →
  text = Some t ∧ t ≠ [] ∧ (t ∉ usedApiTexts g)
  ∧ g' = set_usedApiTexts ({[ t ]} ∪ usedApiTexts g) g.
Proof.
  unfold accept. destruct text as [s |]; [| discriminate].
  destruct (truthy s) eqn:Ht; simpl; [| discriminate].
  destruct (bool_decide_reflect (s ∈ usedApiTexts g)) as [Hin | Hnot]; simpl;
    [discriminate |].
  intros [= <- <-]. apply truthy_nonempty in Ht. done.
Qed.



Lemma stretchOutcome_after (g g2 : NoteGenerator) (round : Round.t)
    (g' : NoteGenerator) :
  messages g2 = messages g →
  usedApiTexts g2 = usedApiTexts g ∨ (allSeen g ∧ usedApiTexts g2 = ∅) →
  stretchOutcome g2 round g' → stretchOutcome g round g'.
Proof.
  intros Hm Hu Ho.
  assert (Hrest :
    usedApiTexts g' = usedApiTexts g2 ∨ (allSeen g2 ∧ usedApiTexts g' = ∅) →
    usedApiTexts g' = usedApiTexts g ∨ (allSeen g ∧ usedApiTexts g' = ∅)).
  { intros [Hs | (Hall & Hs)].
    - destruct Hu as [Hu | (Hall & Hu)]; [left; congruence |].
      right. split; [assumption | congruence].
    - right. split; [| assumption].
      destruct Hu as [Hu | (Hall' & _)]; [| assumption].
      eapply allSeen_transfer; eassumption. }
  destruct round as [i request | [[t |] |]]; simpl in *; try by apply Hrest.
  destruct Ho as (Hne & Hin & Hshape).
  split; [assumption |]. split; [assumption |].
  destruct Hu as [Hu | (Hall & Hu)].
  - destruct Hshape as [(Hnot & Hs) | (Hall & Hs)].
    + left. rewrite <- Hu. by split.
    + right. split; [| assumption]. eapply allSeen_transfer; eassumption.
  - right. split; [assumption |].
    destruct Hshape as [(_ & Hs) | (_ & Hs)]; [| assumption].
    rewrite Hs, Hu. by rewrite union_empty_r_L.
Qed.

Lemma advance_stretchOutcome (r : Q) (fuel i : nat) (g : NoteGenerator) :
  stretchOutcome g (fst (Round.advance r fuel i g))
    (snd (Round.advance r fuel i g)).
Proof.
  revert i g. induction fuel as [| fuel IH]; intros i g.
  - simpl. by left.
  - simpl. set (g1 := set_currentApiIndex _ g).
    destruct (apiSources g !! currentApiIndex g) as [source |]; [| by left].
    assert (Hcont : ∀ j g2,
      messages g2 = messages g →
      usedApiTexts g2 = usedApiTexts g ∨ (allSeen g ∧ usedApiTexts g2 = ∅) →
      stretchOutcome g (fst (Round.advance r fuel j g2))
        (snd (Round.advance r fuel j g2))).
    { intros j g2 Hm Hu. eapply stretchOutcome_after; [exact Hm | exact Hu |].
      apply IH. }
    destruct (ApiSource.enabled source); simpl; [| by apply Hcont; [| left]].
    destruct (bool_decide (ApiSource.name source = "hitokoto"%string));
      [by left |].
    destruct (bool_decide (ApiSource.name source = "jinrishici"%string));
      [by left |].
    destruct (bool_decide (ApiSource.name source = "local"%string));
      [| by apply Hcont; [| left]].
    pose proof (getLocalMessage_used r g1) as Hl.
    pose proof (getLocalMessage_frame r g1) as Hfr.
    destruct (getLocalMessage r g1) as [text g2]. simpl in Hl, Hfr.
    assert (Hm : messages g2 = messages g) by (by destruct Hfr).
    assert (Hu : usedApiTexts g2 = usedApiTexts g
                 ∨ (allSeen g ∧ usedApiTexts g2 = ∅)).
    { destruct Hl as [(-> & _) | (-> & Hall & _)]; [by left |].
      right. by split. }
    destruct (accept text g2) as [[t g3] |] eqn:Ha; [| by apply Hcont].
    apply accept_Some in Ha as (-> & Hne & Hnot & ->). simpl.
    split; [assumption |].
    split; [apply elem_of_union; left; by apply elem_of_singleton |].
    destruct Hu as [Hu | (Hall & Hu)].
    + left. rewrite <- Hu. by split.
    + right. split; [assumption |]. rewrite Hu. by rewrite union_empty_r_L.
Qed.

Lemma resume_stretchOutcome (env : Env) (i : nat) (request : Round.Await)
    (g : NoteGenerator) :
  stretchOutcome g (fst (Round.resume env i request g))
    (snd (Round.resume env i request g)).
Proof.
  unfold Round.resume.
  destruct (match request with
            | Round.AwaitHitokoto => fetchHitokoto (hitokotoReply env)
            | Round.AwaitJinrishici => fetchJinrishici (jinrishiciReply env)
            end) as [text |]; [| apply advance_stretchOutcome].
  destruct (accept (Some text) g) as [[t g'] |] eqn:Ha;
    [| apply advance_stretchOutcome].
  apply accept_Some in Ha as (_ & Hne & Hnot & ->). simpl.
  split; [assumption |].
  split; [apply elem_of_union; left; by apply elem_of_singleton |].
  left. by split.
Qed.

(** X1. However the rounds overlap, a text that a call of [fetchFromAPIs]
    returns is not empty and is in the seen-set when it is returned. The
    stretch that returns it is the call itself, up to its first [await], or
    the continuation after an awaited reply: the text was not in the
    seen-set when that stretch started and has been added to it, or else
    every local message had been seen by then and the set, reset by the
    local pick, holds the text alone. *)
Theorem round_text_fresh_and_recorded (env : Env) (r : Q) (i : nat)
    (request : Round.Await) (g : NoteGenerator) (t : jsstring)
    (g' : NoteGenerator) :
  Round.start r g = (Round.Settled (Return (Some t)), g')
  ∨ Round.resume env i request g = (Round.Settled (Return (Some t)), g') →
  t ≠ [] ∧ t ∈ usedApiTexts g'
  ∧ (((t ∉ usedApiTexts g) ∧ usedApiTexts g' = {[ t ]} ∪ usedApiTexts g)
     ∨ (allSeen g ∧ usedApiTexts g' = {[ t ]})).
Proof.
  intros [H | H].
  - pose proof (advance_stretchOutcome r (length (apiSources g)) 0 g) as Ho.
    unfold Round.start in H. rewrite H in Ho. exact Ho.
  - pose proof (resume_stretchOutcome env i request g) as Ho.
    rewrite H in Ho. exact Ho.
Qed.

(** The second of two overlapped rounds on the two-message list: its
    request, to the jinrishici source, is answered with "J" after the first
    round has returned "H". *)
Lemma round_text_fresh_and_recorded_witness :
  [74%N] ∈ usedApiTexts
             (snd (Round.resume bothAnswer 0 Round.AwaitJinrishici
                     afterFirstReturn)).
Proof.
  assert (Hf : fst (Round.resume bothAnswer 0 Round.AwaitJinrishici
                      afterFirstReturn)
               = Round.Settled (Return (Some [74%N])))
    by (vm_compute; reflexivity).
  destruct (Round.resume bothAnswer 0 Round.AwaitJinrishici afterFirstReturn)
    as [round g'] eqn:He.
  simpl in Hf. subst round. simpl.
  destruct (round_text_fresh_and_recorded bothAnswer 0 0 Round.AwaitJinrishici
              afterFirstReturn [74%N] g') as (_ & Hin & _);
    [by right | exact Hin].
Defined.

Lemma run_snoc (evs : list Rounds.Event) (ev : Rounds.Event)
    (w : Rounds.World) :
  Rounds.run (evs ++ [ev]) w = Rounds.react ev (Rounds.run evs w).
Proof. unfold Rounds.run. by rewrite foldl_app. Qed.

Lemma returned_stretch (g0 g g' : NoteGenerator) (round : Round.t)
    (texts : list jsstring) :
  ¬ allSeen g → stretchOutcome g round g' →
  NoDup texts →
  (∀ t, t ∈ texts → t ≠ [] ∧ (t ∉ usedApiTexts g0)) →
  usedApiTexts g = list_to_set texts ∪ usedApiTexts g0 →
  NoDup (texts ++ Rounds.returned round)
  ∧ (∀ t, t ∈ texts ++ Rounds.returned round → t ≠ [] ∧ (t ∉ usedApiTexts g0))
  ∧ usedApiTexts g'
    = list_to_set (texts ++ Rounds.returned round) ∪ usedApiTexts g0.
Proof.
  intros Hnot Ho Hnd Hnew Hused.
  assert (Hsame : usedApiTexts g' = usedApiTexts g
                  ∨ (allSeen g ∧ usedApiTexts g' = ∅) →
    NoDup (texts ++ [])
    ∧ (∀ t, t ∈ texts ++ [] → t ≠ [] ∧ (t ∉ usedApiTexts g0))
    ∧ usedApiTexts g' = list_to_set (texts ++ []) ∪ usedApiTexts g0).
  { rewrite app_nil_r. intros [Hs | (Hall & _)]; [| contradiction].
    split; [assumption |]. split; [assumption | congruence]. }
  destruct round as [i request | [[t |] |]]; simpl in *; try by apply Hsame.
  destruct Ho as (Hne & _ & [(Hfresh & Hs) | (Hall & _)]); [| contradiction].
  assert (Hout : (t ∉ texts) ∧ (t ∉ usedApiTexts g0)).
  { rewrite Hused in Hfresh. split; intros Hin; apply Hfresh.
    - apply elem_of_union. left. by apply elem_of_list_to_set.
    - apply elem_of_union. by right. }
  destruct Hout as (Hout1 & Hout2).
  split.
  { apply NoDup_app. split; [assumption |].
    split; [| apply NoDup_singleton].
    intros x Hx Hx'. apply list_elem_of_singleton in Hx'. by subst x. }
  split.
  { intros x Hx. apply elem_of_app in Hx as [Hx | Hx]; [by apply Hnew |].
    apply list_elem_of_singleton in Hx. by subst x. }
  rewrite Hs, Hused, list_to_set_snoc_L.
  rewrite (union_comm_L (list_to_set texts) {[ t ]}).
  by rewrite union_assoc_L.
Qed.

Lemma react_delivered (g0 : NoteGenerator) (ev : Rounds.Event)
    (w : Rounds.World) :
  ¬ allSeen (Rounds.generator w) →
  NoDup (Rounds.delivered w) →
  (∀ t, t ∈ Rounds.delivered w → t ≠ [] ∧ (t ∉ usedApiTexts g0)) →
  usedApiTexts (Rounds.generator w)
  = list_to_set (Rounds.delivered w) ∪ usedApiTexts g0 →
  NoDup (Rounds.delivered (Rounds.react ev w))
  ∧ (∀ t, t ∈ Rounds.delivered (Rounds.react ev w) →
          t ≠ [] ∧ (t ∉ usedApiTexts g0))
  ∧ usedApiTexts (Rounds.generator (Rounds.react ev w))
    = list_to_set (Rounds.delivered (Rounds.react ev w)) ∪ usedApiTexts g0.
Proof.
  intros Hnot Hnd Hnew Hused. destruct ev as [r | k env | r]; simpl.
  - pose proof (advance_stretchOutcome r
                  (length (apiSources (Rounds.generator w))) 0
                  (Rounds.generator w)) as Ho.
    fold (Round.start r (Rounds.generator w)) in Ho.
    destruct (Round.start r (Rounds.generator w)) as [round g']. simpl in *.
    by eapply returned_stretch.
  - destruct (Rounds.rounds w !! k) as [[i request | res] |]; [| done | done].
    pose proof (resume_stretchOutcome env i request (Rounds.generator w)) as Ho.
    destruct (Round.resume env i request (Rounds.generator w)) as [round g'].
    simpl in *. by eapply returned_stretch.
  - split; [assumption |]. split; [assumption |].
    destruct (getLocalMessage_used r (Rounds.generator w))
      as [(-> & _) | (_ & Hall & _)]; [assumption | contradiction].
Qed.

(** X2. However the calls of [fetchFromAPIs] overlap, with one another and
    with the local picks of [getRandomMessage], no text is returned twice,
    as long as some local message is unseen at the start of every stretch
    (so that the seen-set is not reset): the texts returned are pairwise
    distinct, none is empty, none was in the seen-set at the outset, and the
    seen-set in the end is the one of the outset with the texts returned
    added. *)
Theorem overlapped_rounds_no_repeat (evs : list Rounds.Event)
    (g : NoteGenerator) :
  (∀ k, (k < length evs)%nat →
        ¬ allSeen (Rounds.generator
                     (Rounds.run (take k evs) (Rounds.initial g)))) →
  NoDup (Rounds.delivered (Rounds.run evs (Rounds.initial g)))
  ∧ (∀ t, t ∈ Rounds.delivered (Rounds.run evs (Rounds.initial g)) →
          t ≠ [] ∧ (t ∉ usedApiTexts g))
  ∧ usedApiTexts (Rounds.generator (Rounds.run evs (Rounds.initial g)))
    = list_to_set (Rounds.delivered (Rounds.run evs (Rounds.initial g)))
      ∪ usedApiTexts g.
Proof.
  induction evs as [| ev evs IH] using rev_ind; intros Hnot.
  - simpl. split; [apply NoDup_nil_2 |].
    split; [intros t Ht; inversion Ht |].
    by rewrite union_empty_l_L.
  - rewrite run_snoc.
    destruct IH as (Hnd & Hnew & Hused).
    { intros k Hk. specialize (Hnot k).
      rewrite take_app_le in Hnot by lia.
      apply Hnot. rewrite length_app. simpl. lia. }
    apply react_delivered; try assumption.
    specialize (Hnot (length evs)).
    rewrite take_app_length in Hnot.
    apply Hnot. rewrite length_app. simpl. lia.
Qed.

(** Two rounds overlap on the two-message list, the hitokoto source
    answering "H" and the jinrishici source "J": the two texts returned
    differ. *)
Lemma overlapped_rounds_no_repeat_witness :
  NoDup (Rounds.delivered (Rounds.run twoOverlapped (Rounds.initial twoMessages))).
Proof.
  apply (overlapped_rounds_no_repeat twoOverlapped twoMessages).
  intros k Hk Hall.
  assert (Hin : [97%N] ∈ usedApiTexts
                  (Rounds.generator
                     (Rounds.run (take k twoOverlapped)
                        (Rounds.initial twoMessages)))).
  { apply Hall. assert (Hg : ∀ evs, messages (Rounds.generator
        (Rounds.run evs (Rounds.initial twoMessages))) = messages twoMessages).
    { intros evs. induction evs as [| ev evs IH] using rev_ind; [reflexivity |].
      rewrite run_snoc, <- IH.
      set (w := Rounds.run evs (Rounds.initial twoMessages)).
      destruct ev as [r | j env | r]; simpl.
      - pose proof (start_frame r (Rounds.generator w)) as Hf.
        destruct (Round.start r (Rounds.generator w)). by destruct Hf.
      - destruct (Rounds.rounds w !! j) as [[i request | res] |]; try done.
        pose proof (step_frame env (Round.Suspended i request)
                      (Rounds.generator w)) as Hf. simpl in Hf.
        destruct (Round.resume env i request (Rounds.generator w)).
        by destruct Hf.
      - by destruct (getLocalMessage_frame r (Rounds.generator w)). }
    rewrite Hg. constructor. }
  simpl in Hk.
  assert (Hdec : ∀ j, (j < 4)%nat →
            bool_decide ([97%N] ∈ usedApiTexts
              (Rounds.generator
                 (Rounds.run (take j twoOverlapped)
                    (Rounds.initial twoMessages)))) = false).
  { intros j Hj.
    destruct j as [| [| [| [| j]]]]; [vm_compute; reflexivity .. | lia]. }
  specialize (Hdec k Hk). apply bool_decide_eq_false in Hdec. contradiction.
Defined.

(** ** The cursor, the pending refills and the cache *)









(** ** Rounds that cannot succeed, rounds that cannot fail *)

Lemma sourceText_silent (env : Env) (source : ApiSource.t) (g : NoteGenerator) :
  silent env source → ApiSource.enabled source = true →
  sourceText env source g = (Throw, g)
  ∨ sourceText env source g = (Return None, g).
Proof.
  intros [Hd | [(Hn & Hr) | [(Hn & Hr) | (H1 & H2 & H3)]]] He;
    unfold sourceText.
  - congruence.
  - rewrite bool_decide_eq_true_2 by assumption. rewrite Hr. by left.
  - rewrite bool_decide_eq_false_2 by (rewrite Hn; discriminate).
    rewrite bool_decide_eq_true_2 by assumption. rewrite Hr. by left.
  - rewrite !bool_decide_eq_false_2 by assumption. by right.
Qed.

Lemma firstAccepted_silent (env : Env) (order : list ApiSource.t)
    (g : NoteGenerator) :
  Forall (silent env) order →
  firstAccepted env order g = (None, g, length order).
Proof.
  induction 1 as [| source order Hs Hrest IH]; simpl; [reflexivity |].
  destruct (ApiSource.enabled source) eqn:He; [| by rewrite IH].
  destruct (sourceText_silent env source g Hs He) as [-> | ->];
    simpl; by rewrite IH.
Qed.


(** X4. When no source can give a text (each one is disabled, or a remote
    source whose request fails, or of an unknown name), a round from a
    cursor in range returns [null] and leaves the generator exactly as it
    was: the cursor has gone once around the list and is back where it
    started. *)
Theorem fetchFromAPIs_all_silent (env : Env) (g : NoteGenerator) :
  cursorInRange g → Forall (silent env) (apiSources g) →
  fetchFromAPIs env g = (Return None, g).
Proof.
  intros Hc Hs. unfold fetchFromAPIs, cursorInRange in *.
  rewrite fetchLoop_firstAccepted by (assumption || lia).
  rewrite <- (length_rotate (apiSources g) (currentApiIndex g)) at 1.
  rewrite firstn_all, firstAccepted_silent.
  - rewrite length_rotate.
    replace (currentApiIndex g + length (apiSources g))%nat
      with (currentApiIndex g + 1 * length (apiSources g))%nat by lia.
    rewrite Nat.Div0.mod_add, Nat.mod_small by assumption.
    by rewrite set_currentApiIndex_same.
  - apply Forall_forall. intros s Hin.
    apply elem_of_rotate in Hin. revert s Hin. by apply Forall_forall.
Qed.

(** Both remote requests fail and the local source is switched off. *)
Lemma fetchFromAPIs_all_silent_witness :
  fetchFromAPIs offline remoteOnly = (Return None, remoteOnly).
Proof.
  apply fetchFromAPIs_all_silent.
  - unfold cursorInRange. simpl. lia.
  - apply Forall_cons. split; [right; left; by split |].
    apply Forall_cons. split; [right; right; left; by split |].
    apply Forall_cons. split; [by left | apply Forall_nil_2].
Defined.

Lemma round_of_silent_sources (env : Env) (g : NoteGenerator) :
  cursorInRange g → Forall (silent env) (apiSources g) →
  fetchFromAPIs env g = (Return None, g).
Proof.
  intros Hc Hs. unfold cursorInRange in Hc.
  rewrite fetchFromAPIs_fetchFromSources by assumption.
  unfold fetchFromSources. rewrite firstAccepted_silent.
  - simpl. rewrite length_rotate.
    replace (currentApiIndex g + length (apiSources g))%nat
      with (currentApiIndex g + 1 * length (apiSources g))%nat by lia.
    rewrite Nat.Div0.mod_add, Nat.mod_small by assumption.
    by rewrite set_currentApiIndex_same.
  - apply Forall_forall. intros s Hin.
    apply elem_of_rotate in Hin. revert s Hin. by apply Forall_forall.
Qed.

(** C6, as the code has it. With a non-empty message list and a draw in
    [0, 1), [getRandomMessage] returns a text: the front of the cache when
    there is one, and otherwise a message of the local list. No round over
    the sources is run for the caller, whose text does not depend on the
    replies of the remote sources; a round in which every source fails
    returns [null], with which the callback of a refill leaves the cache as
    it is, and the caller still has its text. The local message is not taken unconditionally: the seen-set
    is consulted, and while a message is unseen the text is an unseen
    one. *)
Theorem getRandomMessage_never_fails (env : Env) (g : NoteGenerator) :
  (0 <= random env)%Q → (random env < 1)%Q → messages g ≠ [] →
  ∃ t, fst (getRandomMessage env g) = Some t
       ∧ (∀ text rest, hitokotoCache g = text :: rest → t = text)
       ∧ (hitokotoCache g = [] →
          t ∈ messages g
          ∧ ((∃ m, m ∈ messages g ∧ m ∉ usedApiTexts g) →
             t ∉ usedApiTexts g))
       ∧ (∀ h j, fst (getRandomMessage (mkEnv h j (random env)) g) = Some t)
       ∧ (cursorInRange g → Forall (silent env) (apiSources g) →
          fst (fetchFromAPIs env g) = Return None
          ∧ ∀ g', refillCallback (fst (fetchFromAPIs env g)) g' = g').
Proof.
  intros H0 H1 Hm.
  assert (Hsilent : cursorInRange g → Forall (silent env) (apiSources g) →
            fst (fetchFromAPIs env g) = Return None
            ∧ ∀ g', refillCallback (fst (fetchFromAPIs env g)) g' = g').
  { intros Hc Hs. by rewrite round_of_silent_sources. }
  destruct (hitokotoCache g) as [| text rest] eqn:Hc.
  - destruct (getLocalMessage_some (random env) g H0 H1 Hm)
      as (t & Ht & Hin & Hunseen & _).
    assert (Heq : ∀ h j, getRandomMessage (mkEnv h j (random env)) g
                         = getLocalMessage (random env) g).
    { intros h j. unfold getRandomMessage. by rewrite Hc. }
    exists t. split.
    { destruct env as [h j r]. simpl in *. by rewrite (Heq h j). }
    split; [intros ? ? [=] |].
    split; [intros _; split; [assumption |]; intros Hex; by apply Hunseen |].
    split; [intros h j; by rewrite Heq | assumption].
  - exists text.
    split; [by destruct (getRandomMessage_cached env g text rest Hc) |].
    split; [by intros ? ? [= -> _] |].
    split; [discriminate |].
    split; [| assumption].
    intros h j.
    by destruct (getRandomMessage_cached (mkEnv h j (random env)) g text rest Hc).
Qed.

(** The two-message list with "a" seen: the call returns an unseen
    message. *)
Lemma getRandomMessage_never_fails_witness :
  ∃ t, fst (getRandomMessage offline twoMessagesSeenA) = Some t
       ∧ t ∈ messages twoMessagesSeenA
       ∧ (t ∉ usedApiTexts twoMessagesSeenA).
Proof.
  destruct (getRandomMessage_never_fails offline twoMessagesSeenA)
    as (t & Ht & _ & Hlocal & _); [discriminate | reflexivity | discriminate |].
  destruct (Hlocal eq_refl) as (Hin & Hunseen).
  exists t. split; [assumption |]. split; [assumption |].
  apply Hunseen. exists [98%N]. split.
  - apply elem_of_cons. right. constructor.
  - unfold twoMessagesSeenA. simpl.
    intros H%elem_of_singleton. discriminate.
Defined.

(** C6 as stated fails in its second part. The cache is empty, "a" is seen
    and "b" is not, the local source is switched off and both remote
    requests fail, so that every source fails in a round: the round returns
    [null]. The caller gets "b" whatever [Math.random()] gives, never "a",
    which is in the list as well: the message is chosen with the seen-set
    consulted, not unconditionally. *)
Lemma unconditional_fallback_claim_fails :
  hitokotoCache remoteOnlySeenA = []
  ∧ [97%N] ∈ messages remoteOnlySeenA
  ∧ [97%N] ∈ usedApiTexts remoteOnlySeenA
  ∧ (∀ r, fst (fetchFromAPIs (mkEnv Failed Failed r) remoteOnlySeenA)
          = Return None)
  ∧ (∀ r, (0 <= r)%Q → (r < 1)%Q →
          fst (getRandomMessage (mkEnv Failed Failed r) remoteOnlySeenA)
          = Some [98%N]).
Proof.
  split; [reflexivity |]. split; [constructor |].
  split; [unfold remoteOnlySeenA; simpl; by apply elem_of_singleton_2 |].
  split.
  - intros r. rewrite round_of_silent_sources; [reflexivity | |].
    + unfold cursorInRange. simpl. lia.
    + apply Forall_cons. split; [right; left; by split |].
      apply Forall_cons. split; [right; right; left; by split |].
      apply Forall_cons. split; [by left | apply Forall_nil_2].
  - intros r H0 H1.
    unfold getRandomMessage, getLocalMessage. simpl hitokotoCache. cbv iota.
    assert (Hav : filter (λ msg, msg ∉ usedApiTexts remoteOnlySeenA)
                    (messages remoteOnlySeenA) = [[98%N]])
      by (vm_compute; reflexivity).
    rewrite Hav. simpl length. simpl Nat.eqb. cbv iota. simpl fst.
    pose proof (floorRandom_range r 1 H0 H1 ltac:(lia)) as Hr.
    unfold index. replace (floorRandom r 1) with 0%Z by lia. reflexivity.
Qed.





(** ** An empty local list *)

Lemma index_nil {A : Type} (i : Z) : index (@nil A) i = None.
Proof. unfold index. by destruct (0 <=? i)%Z. Qed.

(** X6. With an empty message list and an empty cache, [getRandomMessage]
    returns [undefined] and resets the seen-set, whatever [Math.random()]
    gives; [generateNote] then throws on [message.length] before anything
    is placed: no record is added and the counter is not moved. *)
Theorem empty_list_no_note (env : Env) (colorRandom : Q) (note : Elem)
    (g : NoteGenerator) :
  messages g = [] → hitokotoCache g = [] →
  getRandomMessage env g = (None, set_usedApiTexts ∅ g)
  ∧ generateNote env colorRandom note g = (Throw, set_usedApiTexts ∅ g)
  ∧ notes (snd (generateNote env colorRandom note g)) = notes g
  ∧ noteCount (snd (generateNote env colorRandom note g)) = noteCount g.
Proof.
  intros Hm Hc.
  assert (Hget : getRandomMessage env g = (None, set_usedApiTexts ∅ g)).
  { unfold getRandomMessage, getLocalMessage. rewrite Hc, Hm. simpl.
    by rewrite index_nil. }
  split; [assumption |].
  unfold generateNote. rewrite Hget. by repeat split.
Qed.

(** The object as the constructor builds it: no message is loaded yet. *)
Lemma empty_list_no_note_witness :
  generateNote offline 0 7%nat constructor
  = (Throw, set_usedApiTexts ∅ constructor).
Proof. by apply (empty_list_no_note offline 0 7%nat constructor). Defined.

(** ** Colour and size *)

(** X7. For a draw in [0, 1), [getRandomColor] returns one of the six
    colours, never [undefined]. *)
Theorem getRandomColor_in_palette (r : Q) :
  (0 <= r)%Q → (r < 1)%Q →
  ∃ c, getRandomColor r = Some c ∧ c ∈ colors.
Proof.
  intros H0 H1. unfold getRandomColor.
  apply index_floorRandom; [assumption .. | discriminate].
Qed.

(** The draw 1/2 picks the fourth colour. *)
Lemma getRandomColor_in_palette_witness :
  ∃ c, getRandomColor (1 # 2) = Some c ∧ c ∈ colors.
Proof. apply getRandomColor_in_palette; [discriminate | reflexivity]. Defined.

Lemma calculateNoteSize_cases (text : jsstring) :
  let n := length text in
  ((50 < n)%nat ∧ calculateNoteSize text = Size.mk 130 120 (65 # 100))
  ∨ ((40 < n <= 50)%nat ∧ calculateNoteSize text = Size.mk 120 110 (68 # 100))
  ∨ ((25 < n <= 40)%nat ∧ calculateNoteSize text = Size.mk 115 108 (7 # 10))
  ∨ ((15 < n <= 25)%nat ∧ calculateNoteSize text = Size.mk 110 105 (72 # 100))
  ∨ ((8 <= n <= 15)%nat ∧ calculateNoteSize text = Size.mk 100 100 (75 # 100))
  ∨ ((n < 8)%nat ∧ calculateNoteSize text = Size.mk 90 90 (8 # 10)).
Proof.
  intros n. unfold calculateNoteSize. fold n.
  destruct (Nat.ltb_spec 50 n); [left; by split |].
  destruct (Nat.ltb_spec 40 n); [right; left; split; [lia | reflexivity] |].
  destruct (Nat.ltb_spec 25 n);
    [right; right; left; split; [lia | reflexivity] |].
  destruct (Nat.ltb_spec 15 n);
    [right; right; right; left; split; [lia | reflexivity] |].
  destruct (Nat.ltb_spec n 8).
  - right; right; right; right; right. by split.
  - right; right; right; right; left. split; [lia | reflexivity].
Qed.

(** X8. The size of a note grows with its text and its font shrinks: a text
    at least as long as another gets a box at least as wide and as high and
    a font at most as large. Whatever the text, the box is between 90 and
    130 pixels wide and between 90 and 120 high, and the font between 0.65
    and 0.8 rem. *)
Theorem calculateNoteSize_monotone (s t : jsstring) :
  (length s <= length t)%nat →
  (Size.width (calculateNoteSize s) <= Size.width (calculateNoteSize t))%Z
  ∧ (Size.height (calculateNoteSize s) <= Size.height (calculateNoteSize t))%Z
  ∧ (Size.fontSize (calculateNoteSize t) <= Size.fontSize (calculateNoteSize s))%Q
  ∧ (90 <= Size.width (calculateNoteSize t) <= 130)%Z
  ∧ (90 <= Size.height (calculateNoteSize t) <= 120)%Z
  ∧ (65 # 100 <= Size.fontSize (calculateNoteSize t))%Q
  ∧ (Size.fontSize (calculateNoteSize t) <= 8 # 10)%Q.
Proof.
  intros Hle.
  destruct (calculateNoteSize_cases s)
    as [(Hs & ->) | [(Hs & ->) | [(Hs & ->) | [(Hs & ->) | [(Hs & ->) | (Hs & ->)]]]]];
  destruct (calculateNoteSize_cases t)
    as [(Ht & ->) | [(Ht & ->) | [(Ht & ->) | [(Ht & ->) | [(Ht & ->) | (Ht & ->)]]]]];
  try lia; simpl; unfold Qle; simpl; lia.
Qed.

(** A text of 8 code units against one of 16. *)
Lemma calculateNoteSize_monotone_witness :
  (Size.width (calculateNoteSize (replicate 8 97%N))
   <= Size.width (calculateNoteSize (replicate 16 97%N)))%Z.
Proof.
  apply (calculateNoteSize_monotone (replicate 8 97%N) (replicate 16 97%N)).
  simpl. lia.
Defined.

(** * Further properties of the heart curve *)

Section HeartSymmetry.
Local Open Scope R_scope.

Lemma heartScale_nonneg (b : R) : 0 <= b → 0 <= heartScale b.
Proof.
  intros Hb. unfold heartScale.
  destruct (Rlt_dec b 500); [lra |].
  destruct (Rlt_dec b 768); [lra |].
  destruct (Rlt_dec b 1024); lra.
Qed.

End HeartSymmetry.

(** X11. On a surface of non-negative sides, and for a number of slots
    that is not zero, every point of the curve lies in a box around the
    centre of the surface, shifted by the 50 pixels of half a note: at most
    16 times the scale to the left or right, and at most 21 times the scale
    above or below. *)
Theorem heart_position_box (c : Canvas.t) (index totalNotes : R) :
  (0 <= Canvas.width c)%R → (0 <= Canvas.height c)%R →
  (totalNotes ≠ 0)%R →
  let p := getHeartPosition c index totalNotes in
  let scale := heartScale (Rmin (Canvas.width c) (Canvas.height c)) in
  (0 <= scale)%R
  ∧ (Canvas.width c / 2 - 50 - 16 * scale <= Point.x p
     <= Canvas.width c / 2 - 50 + 16 * scale)%R
  ∧ (Canvas.height c / 2 - 50 - 21 * scale <= Point.y p
     <= Canvas.height c / 2 - 50 + 21 * scale)%R.
Proof.
  intros Hw Hh _ p scale. subst p. unfold getHeartPosition.
  fold scale. cbn [Point.x Point.y].
  set (t := (index / totalNotes * PI * 2)%R).
  assert (Hs : (0 <= scale)%R).
  { apply heartScale_nonneg. by apply Rmin_glb. }
  pose proof (SIN_bound t) as [Hs1 Hs2].
  pose proof (COS_bound t) as [Hc1 Hc2].
  pose proof (COS_bound (2 * t)) as [Hd1 Hd2].
  pose proof (COS_bound (3 * t)) as [He1 He2].
  pose proof (COS_bound (4 * t)) as [Hf1 Hf2].
  assert (Hcube : (-1 <= sin t ^ 3 <= 1)%R).
  { simpl. split; nra. }
  split; [assumption |]. split; split; nra.
Qed.

(** The first of 50 slots on the wide surface of 1200 by 800 pixels. *)
Lemma heart_position_box_witness :
  (0 <= heartScale (Rmin (Canvas.width wideCanvas) (Canvas.height wideCanvas)))%R.
Proof. apply (heart_position_box wideCanvas 0 50); simpl; lra. Defined.

(** * Further properties of the wall *)

Lemma findIndex_app_last {A : Type} (p : A → bool) (l : list A) (b : A) :
  (∀ a, a ∈ l → p a = false) → p b = true →
  findIndex p (l ++ [b]) = Some (length l).
Proof.
  intros Hl Hb. induction l as [| a l IH]; simpl.
  - by rewrite Hb.
  - rewrite (Hl a) by constructor.
    rewrite IH; [reflexivity |]. intros a' Ha'. apply Hl. by constructor.
Qed.

Lemma splice1_app_last {A : Type} (l : list A) (b : A) :
  splice1 (length l) (l ++ [b]) = l.
Proof.
  unfold splice1. rewrite take_app_length.
  rewrite drop_ge by (rewrite length_app; simpl; lia).
  apply app_nil_r.
Qed.

Lemma fmap_splice1 {A B : Type} (f : A → B) (i : nat) (l : list A) :
  f <$> splice1 i l = splice1 i (f <$> l).
Proof. unfold splice1. by rewrite fmap_app, fmap_take, fmap_drop. Qed.

Lemma splice1_sublist {A : Type} (i : nat) (l : list A) :
  splice1 i l `sublist_of` l.
Proof.
  unfold splice1. rewrite <- (take_drop i l) at 3.
  apply sublist_app; [reflexivity |].
  replace (drop (S i) l) with (drop 1 (drop i l))
    by (rewrite drop_drop; f_equal; lia).
  apply sublist_drop.
Qed.

Lemma NoDup_splice1 {A : Type} (i : nat) (l : list A) :
  NoDup l → NoDup (splice1 i l).
Proof. intros H. eapply sublist_NoDup; [exact H | apply splice1_sublist]. Qed.

Lemma filter_all {A : Type} (P : A → Prop) `{!∀ a, Decision (P a)}
    (l : list A) :
  Forall P l → filter P l = l.
Proof.
  induction 1 as [| a l Ha Hl IH]; [reflexivity |].
  rewrite filter_cons_True by assumption. by rewrite IH.
Qed.

Lemma splice1_filter (e : Elem) (l : list Note.t) (i : nat) :
  NoDup (Note.element <$> l) →
  findIndex (isElement e) l = Some i →
  splice1 i l = filter (λ n, Note.element n ≠ e) l.
Proof.
  revert i. induction l as [| a l IH]; intros i Hnd Hf; simpl in Hf;
    [discriminate |].
  rewrite fmap_cons in Hnd. apply NoDup_cons in Hnd as (Hnotin & Hnd).
  destruct (isElement e a) eqn:Hp.
  - injection Hf as <-. apply isElement_true in Hp.
    unfold splice1. simpl. rewrite drop_0.
    rewrite filter_cons_False by (intros Hne; by apply Hne).
    symmetry. apply filter_all. apply Forall_forall. intros n Hn Heq.
    apply Hnotin. rewrite Hp, <- Heq. by apply list_elem_of_fmap_2.
  - destruct (findIndex (isElement e) l) as [k |] eqn:Hk; simpl in Hf;
      [| discriminate].
    injection Hf as <-. apply isElement_false in Hp.
    rewrite filter_cons_True by assumption.
    rewrite <- (IH k Hnd eq_refl). reflexivity.
Qed.

Lemma removeNote_notes_filter (e : Elem) (g : NoteGenerator) :
  distinctElements g →
  notes (removeNote e g) = filter (λ n, Note.element n ≠ e) (notes g).
Proof.
  intros Hnd. unfold removeNote.
  destruct (findIndex (isElement e) (notes g)) as [i |] eqn:Hf; simpl.
  - by apply splice1_filter.
  - symmetry. apply filter_all. apply Forall_forall.
    by apply findIndex_element_None.
Qed.

(** X12. Generating a note with a new element and removing that element
    again gives back the list of records and the counter as they were;
    this holds as well when [generateNote] throws, the removal finding
    nothing then. *)
Theorem generate_then_remove (env : Env) (colorRandom : Q) (note : Elem)
    (g : NoteGenerator) :
  (∀ n, n ∈ notes g → Note.element n ≠ note) →
  let g' := removeNote note (snd (generateNote env colorRandom note g)) in
  notes g' = notes g ∧ noteCount g' = noteCount g.
Proof.
  intros Hfresh g'. subst g'.
  pose proof (generateNote_effect env colorRandom note g) as Heff.
  destruct (generateNote env colorRandom note g) as [[e |] g1]; simpl.
  - destruct Heff as (-> & (x & y & Hn) & Hc). unfold removeNote.
    rewrite Hn, findIndex_app_last.
    + simpl. rewrite splice1_app_last. split; [reflexivity | lia].
    + intros a Ha. apply isElement_false. by apply Hfresh.
    + by apply isElement_true.
  - destruct Heff as (Hn & Hc). rewrite removeNote_missing; [by split |].
    by rewrite Hn.
Qed.

(** A first note of the element 7 on the empty wall, removed again. *)
Lemma generate_then_remove_witness :
  notes (removeNote 7%nat (snd (generateNote offline 0 7%nat emptyWall)))
  = notes emptyWall.
Proof.
  apply (generate_then_remove offline 0 7%nat emptyWall).
  intros n Hn. inversion Hn.
Defined.

(** X13. Under distinct elements [removeNote] keeps exactly the records of
    the other elements, in their order; no record of the element is left,
    and removing it a second time changes nothing. *)
Theorem removeNote_removes_all (e : Elem) (g : NoteGenerator) :
  distinctElements g →
  notes (removeNote e g) = filter (λ n, Note.element n ≠ e) (notes g)
  ∧ (∀ n, n ∈ notes (removeNote e g) → Note.element n ≠ e)
  ∧ removeNote e (removeNote e g) = removeNote e g.
Proof.
  intros Hnd.
  pose proof (removeNote_notes_filter e g Hnd) as Hf.
  assert (Hgone : ∀ n, n ∈ notes (removeNote e g) → Note.element n ≠ e).
  { intros n. rewrite Hf. intros Hn.
    by apply list_elem_of_filter in Hn as (Hne & _). }
  split; [assumption |]. split; [assumption |].
  by apply removeNote_missing.
Qed.

(** The two recorded notes, of the elements 10 and 11: removing 10 leaves
    the record of 11. *)
Lemma removeNote_removes_all_witness :
  removeNote 10%nat (removeNote 10%nat twoNotes) = removeNote 10%nat twoNotes.
Proof.
  apply (removeNote_removes_all 10%nat twoNotes).
  unfold distinctElements. simpl.
  apply NoDup_cons. split.
  - intros Hin. apply elem_of_cons in Hin as [Heq | Hin];
      [discriminate | inversion Hin].
  - apply NoDup_singleton.
Defined.

(** ** Elements stay distinct, the canvas shows the records *)

Lemma fmap_filter_element (e : Elem) (l : list Note.t) :
  Note.element <$> filter (λ n, Note.element n ≠ e) l
  = filter (λ e', e' ≠ e) (Note.element <$> l).
Proof.
  induction l as [| a l IH]; [reflexivity |].
  rewrite fmap_cons. destruct (decide (Note.element a = e)) as [Heq | Hne].
  - rewrite !filter_cons_False by (intros H; by apply H). exact IH.
  - rewrite !filter_cons_True by assumption. rewrite fmap_cons. by rewrite IH.
Qed.

Lemma generateNote_canvas (env : Env) (colorRandom : Q) (note : Elem)
    (g : NoteGenerator) :
  match generateNote env colorRandom note g with
  | (Return _, g') =>
      ∃ c, canvas g = Some c ∧ canvas g' = Some (appendChild note c)
  | (Throw, g') => canvas g' = canvas g
  end.
Proof.
  unfold generateNote.
  pose proof (getRandomMessage_wall env g) as (_ & _ & Hc & _).
  destruct (getRandomMessage env g) as [message g1]. simpl in Hc.
  destruct message as [message |]; [| assumption].
  destruct (canvas g1) as [c |] eqn:Hc1; [| congruence].
  simpl. exists c. by rewrite <- Hc.
Qed.

Lemma updateNotePosition_elements (e : Elem) (x y : R) (g : NoteGenerator) :
  Note.element <$> notes (updateNotePosition e x y g)
  = Note.element <$> notes g.
Proof.
  unfold updateNotePosition.
  destruct (findIndex (isElement e) (notes g)) as [i |]; [| reflexivity].
  simpl. apply list_eq. intros j. rewrite !list_lookup_fmap.
  destruct (decide (j = i)) as [-> | Hne].
  - rewrite list_lookup_alter_eq. by destruct (notes g !! i).
  - by rewrite list_lookup_alter_ne.
Qed.

Lemma perform_distinctElements (c : Call) (g : NoteGenerator) :
  distinctElements g → bringsFreshElement c g →
  distinctElements (perform c g).
Proof.
  unfold distinctElements. intros Hnd Hfresh. destruct c; simpl.
  - destruct (fetchFromAPIs_frame env g) as [_ _ _ _ Hn _ _ _]. by rewrite Hn.
  - destruct (getRandomMessage_wall env g) as (-> & _). assumption.
  - destruct (settleRefill_wall i g) as (-> & _). assumption.
  - pose proof (generateNote_effect env colorRandom note g) as Heff.
    destruct (generateNote env colorRandom note g) as [[e |] g']; simpl.
    + destruct Heff as (_ & (x & y & ->) & _). rewrite fmap_app.
      apply NoDup_app. split; [assumption |]. split; [| apply NoDup_singleton].
      intros e' He' Hin. simpl in Hin.
      apply elem_of_cons in Hin as [-> | Hin]; [| inversion Hin].
      apply list_elem_of_fmap in He' as (n & Hn & Hin').
      by apply (Hfresh n).
    + destruct Heff as (-> & _). assumption.
  - unfold clearAll. destruct (canvas g); simpl; [constructor | assumption].
  - unfold removeNote. destruct (findIndex _ _) as [i |]; [| assumption].
    simpl. rewrite fmap_splice1. by apply NoDup_splice1.
  - by rewrite updateNotePosition_elements.
  - assumption.
Qed.

(** X14. As long as every generated note comes with a new element, no two
    records are ever of the same element, whatever the calls: so an element
    has at most one record, and [updateNotePosition] and [removeNote],
    which act on the first record they find, act on the only one. *)
Theorem elements_stay_distinct (c : Call) (g : NoteGenerator) :
  distinctElements g → bringsFreshElement c g →
  distinctElements (perform c g)
  ∧ (∀ i j n m, notes g !! i = Some n → notes g !! j = Some m →
                Note.element n = Note.element m → i = j).
Proof.
  intros Hnd Hfresh. split; [by apply perform_distinctElements |].
  intros i j n m Hi Hj Heq. unfold distinctElements in Hnd.
  apply (NoDup_lookup _ i j (Note.element n) Hnd).
  - by rewrite list_lookup_fmap, Hi.
  - by rewrite list_lookup_fmap, Hj, Heq.
Qed.

(** A third note, of the new element 12, joins the notes of 10 and 11. *)
Lemma elements_stay_distinct_witness :
  distinctElements (perform (CallGenerateNote offline 0 12%nat) twoNotes).
Proof.
  apply (elements_stay_distinct (CallGenerateNote offline 0 12%nat) twoNotes).
  - unfold distinctElements. simpl. apply NoDup_cons. split.
    + intros Hin. apply elem_of_cons in Hin as [Heq | Hin];
        [discriminate | inversion Hin].
    + apply NoDup_singleton.
  - simpl. intros n Hn.
    apply elem_of_cons in Hn as [-> | Hn]; [simpl; lia |].
    apply elem_of_cons in Hn as [-> | Hn]; [simpl; lia | inversion Hn].
Defined.

(** X15. If the children of the canvas are the elements of the records, in
    order and without repetition, they still are after any call that brings
    a new element or none: a generated note is appended to both, a removed
    one leaves both, [clearAll] empties both. *)
Theorem canvas_mirrors_notes (c : Call) (g : NoteGenerator) :
  wallInvariant g → bringsFreshElement c g → wallInvariant (perform c g).
Proof.
  intros (Hnd & Hdom) Hfresh.
  split; [by apply perform_distinctElements |].
  unfold domMirrorsNotes in *. destruct c; simpl.
  - destruct (fetchFromAPIs_frame env g) as [_ _ _ Hc Hn _ _ _].
    by rewrite Hc, Hn.
  - destruct (getRandomMessage_wall env g) as (-> & _ & -> & _). assumption.
  - destruct (settleRefill_wall i g) as (-> & _ & -> & _). assumption.
  - pose proof (generateNote_effect env colorRandom note g) as Heff.
    pose proof (generateNote_canvas env colorRandom note g) as Hcv.
    destruct (generateNote env colorRandom note g) as [[e |] g']; simpl.
    + destruct Heff as (_ & (x & y & ->) & _).
      destruct Hcv as (c0 & Hc0 & ->). intros c [= <-].
      rewrite fmap_app. simpl. by rewrite (Hdom c0 Hc0).
    + destruct Heff as (-> & _). by rewrite Hcv.
  - unfold clearAll. destruct (canvas g) as [c0 |] eqn:Hc0; simpl.
    + by intros c [= <-].
    + by rewrite Hc0.
  - rewrite removeNote_notes_filter by assumption.
    unfold removeNote. destruct (findIndex _ _) as [i |] eqn:Hf.
    + simpl. intros c Hc.
      destruct (canvas g) as [c0 |] eqn:Hc0; [| discriminate].
      injection Hc as <-. simpl.
      by rewrite (Hdom c0 eq_refl), fmap_filter_element.
    + intros c Hc. rewrite (Hdom c Hc). f_equal. symmetry.
      apply filter_all. apply Forall_forall.
      by apply findIndex_element_None.
  - rewrite updateNotePosition_elements.
    unfold updateNotePosition. by destruct (findIndex _ _).
  - assumption.
Qed.

(** A note of the new element 7 on the empty wall. *)
Lemma canvas_mirrors_notes_witness :
  wallInvariant (perform (CallGenerateNote offline 0 7%nat) emptyWall).
Proof.
  apply (canvas_mirrors_notes (CallGenerateNote offline 0 7%nat) emptyWall).
  - split; [constructor |]. by intros c [= <-].
  - simpl. intros n Hn. inversion Hn.
Defined.

(** ** Successive drags *)

Lemma findIndex_elements (e : Elem) (l : list Note.t) :
  findIndex (isElement e) l
  = findIndex (λ e', bool_decide (e' = e)) (Note.element <$> l).
Proof.
  induction l as [| a l IH]; [reflexivity |].
  simpl. unfold isElement at 1. by rewrite IH.
Qed.

Lemma findIndex_after_update (e e' : Elem) (x y : R) (g : NoteGenerator) :
  findIndex (isElement e) (notes (updateNotePosition e' x y g))
  = findIndex (isElement e) (notes g).
Proof. by rewrite !findIndex_elements, updateNotePosition_elements. Qed.

Lemma findIndex_distinct (e e' : Elem) (l : list Note.t) (i j : nat) :
  e ≠ e' → findIndex (isElement e) l = Some i →
  findIndex (isElement e') l = Some j → i ≠ j.
Proof.
  intros Hne Hi Hj ->.
  destruct (findIndex_Some _ _ _ Hi) as (a & Ha & Hpa & _).
  destruct (findIndex_Some _ _ _ Hj) as (b & Hb & Hpb & _).
  apply isElement_true in Hpa, Hpb. congruence.
Qed.

(** X16. A later [updateNotePosition] of an element overrides an earlier
    one of the same element, and the updates of two different elements can
    be made in either order. *)
Theorem updateNotePosition_composes (e e' : Elem) (x y x' y' : R)
    (g : NoteGenerator) :
  updateNotePosition e x y (updateNotePosition e x' y' g)
  = updateNotePosition e x y g
  ∧ (e ≠ e' →
     updateNotePosition e x y (updateNotePosition e' x' y' g)
     = updateNotePosition e' x' y' (updateNotePosition e x y g)).
Proof.
  split.
  - unfold updateNotePosition at 1.
    rewrite findIndex_after_update.
    unfold updateNotePosition.
    destruct (findIndex (isElement e) (notes g)) as [i |]; [| reflexivity].
    simpl. unfold set_notes. simpl. f_equal.
    rewrite list_alter_alter_eq. by apply list_alter_ext.
  - intros Hne.
    unfold updateNotePosition at 1 3. rewrite !findIndex_after_update.
    unfold updateNotePosition.
    destruct (findIndex (isElement e) (notes g)) as [i |] eqn:Hi;
      destruct (findIndex (isElement e') (notes g)) as [j |] eqn:Hj;
      try reflexivity.
    simpl. unfold set_notes. simpl. f_equal.
    apply list_alter_alter_ne.
    by apply (findIndex_distinct e e' (notes g)).
Qed.

(** The notes of the elements 10 and 11 dragged one after the other. *)
Lemma updateNotePosition_composes_witness :
  updateNotePosition 10%nat 5 6 (updateNotePosition 11%nat 7 8 twoNotes)
  = updateNotePosition 11%nat 7 8 (updateNotePosition 10%nat 5 6 twoNotes).
Proof.
  apply (updateNotePosition_composes 10%nat 11%nat 5 6 7 8 twoNotes). lia.
Defined.

(** ** Re-layout *)

Lemma repositioned_idem (c : Canvas.t) (i : nat) (n : Note.t) :
  repositioned c i (repositioned c i n) = repositioned c i n.
Proof. reflexivity. Qed.

Lemma repositionNotes_cases (g : NoteGenerator) :
  (notes g = [] ∧ repositionNotes g = (Return tt, g))
  ∨ (notes g ≠ [] ∧ canvas g = None ∧ repositionNotes g = (Throw, g))
  ∨ (∃ c, notes g ≠ [] ∧ canvas g = Some c
          ∧ repositionNotes g
            = (Return tt, set_notes (imap (repositioned c) (notes g)) g)).
Proof.
  unfold repositionNotes. destruct (notes g) as [| n l] eqn:Hn.
  - by left.
  - right. destruct (canvas g) as [c |].
    + right. exists c. by repeat split.
    + left. by repeat split.
Qed.

Lemma imap_repositioned_idem (c : Canvas.t) (l : list Note.t) :
  imap (repositioned c) (imap (repositioned c) l) = imap (repositioned c) l.
Proof.
  apply list_eq. intros i. rewrite !list_lookup_imap.
  by destruct (l !! i).
Qed.

Lemma repositionNotes_on_layout (c : Canvas.t) (g : NoteGenerator) :
  notes g ≠ [] → canvas g = Some c →
  repositionNotes (set_notes (imap (repositioned c) (notes g)) g)
  = (Return tt, set_notes (imap (repositioned c) (notes g)) g).
Proof.
  intros Hn Hc. unfold repositionNotes. cbn [notes canvas set_notes].
  destruct (imap (repositioned c) (notes g)) as [| n' l'] eqn:Hi.
  - apply (f_equal length) in Hi. rewrite length_imap in Hi.
    destruct (notes g); [congruence | discriminate].
  - rewrite Hc. rewrite <- Hi. unfold set_notes. cbn. f_equal. f_equal.
    apply imap_repositioned_idem.
Qed.

(** X17. After [repositionNotes] every record sits on the slot of the curve
    that its place in the list numbers, for the current size of the canvas.
    The records keep their elements and their order, the counter is not
    touched, and a second re-layout changes nothing more. With notes on the
    wall and no canvas it throws and changes nothing. *)
Theorem repositionNotes_aligns (g : NoteGenerator) :
  let g' := snd (repositionNotes g) in
  (fst (repositionNotes g) = Return tt → aligned g')
  ∧ Note.element <$> notes g' = Note.element <$> notes g
  ∧ noteCount g' = noteCount g ∧ canvas g' = canvas g
  ∧ repositionNotes g' = (fst (repositionNotes g), g')
  ∧ (notes g ≠ [] → canvas g = None → repositionNotes g = (Throw, g)).
Proof.
  intros g'. subst g'.
  destruct (repositionNotes_cases g)
    as [(Hn & ->) | [(Hn & Hc & ->) | (c & Hn & Hc & ->)]]; simpl.
  - split.
    { intros _ c i n _ Hi. rewrite Hn in Hi. inversion Hi. }
    repeat split; try congruence.
    unfold repositionNotes. by rewrite Hn.
  - split; [discriminate |]. repeat split.
    unfold repositionNotes. destruct (notes g); [congruence |]. by rewrite Hc.
  - split.
    { intros _ c' i n Hc' Hi. simpl in *.
      assert (c' = c) as -> by congruence.
      rewrite list_lookup_imap in Hi.
      destruct (notes g !! i) as [m |]; [| discriminate].
      injection Hi as <-. reflexivity. }
    split.
    { rewrite fmap_imap. apply list_eq. intros i.
      rewrite list_lookup_imap, list_lookup_fmap.
      by destruct (notes g !! i). }
    split; [reflexivity |]. split; [reflexivity |]. split; [| congruence].
    by apply repositionNotes_on_layout.
Qed.

(** The two notes of [twoNotes] laid out again on the wide surface. *)
Lemma repositionNotes_aligns_witness :
  aligned (snd (repositionNotes (set_canvas (Some wideCanvas) twoNotes))).
Proof.
  apply (repositionNotes_aligns (set_canvas (Some wideCanvas) twoNotes)).
  reflexivity.
Defined.

Lemma generateNote_record (env : Env) (colorRandom : Q) (note : Elem)
    (g : NoteGenerator) :
  match generateNote env colorRandom note g with
  | (Return _, g') =>
      ∃ c, canvas g = Some c
           ∧ notes g'
             = notes g
               ++ [Note.mk
                     (Point.x (getHeartPosition c (IZR (noteCount g)) 50))
                     (Point.y (getHeartPosition c (IZR (noteCount g)) 50))
                     note]
           ∧ canvas g' = Some (appendChild note c)
  | (Throw, g') => notes g' = notes g ∧ canvas g' = canvas g
  end.
Proof.
  unfold generateNote.
  pose proof (getRandomMessage_wall env g) as (Hn & Hk & Hc & _).
  destruct (getRandomMessage env g) as [message g1]. simpl in Hn, Hk, Hc.
  destruct message as [message |]; [| split; assumption].
  destruct (canvas g1) as [c |] eqn:Hc1; [| split; congruence].
  simpl. exists c. rewrite Hn, Hk. by rewrite <- Hc.
Qed.

(** X18. [generateNote] puts the new note on the slot of the curve that the
    counter numbers. As the counter is the number of records, that is the
    slot of the new record's own place in the list: a wall whose records
    all sit on the slots of their places stays so when a note is
    generated. *)
Theorem generateNote_keeps_layout (env : Env) (colorRandom : Q) (note : Elem)
    (g : NoteGenerator) :
  aligned g → countInvariant g →
  aligned (snd (generateNote env colorRandom note g)).
Proof.
  intros Hal Hinv.
  pose proof (generateNote_record env colorRandom note g) as Hrec.
  destruct (generateNote env colorRandom note g) as [[e |] g']; simpl.
  - destruct Hrec as (c & Hc & Hn & Hc').
    intros c' i n Hcv Hi. rewrite Hc' in Hcv. injection Hcv as <-.
    rewrite Hn in Hi.
    destruct (decide (i < length (notes g))%nat) as [Hlt | Hge].
    + rewrite lookup_app_l in Hi by assumption.
      apply (Hal c i n Hc Hi).
    + rewrite lookup_app_r in Hi by lia.
      destruct (i - length (notes g))%nat as [| k] eqn:Hk; [| discriminate].
      injection Hi as <-. assert (i = length (notes g)) as -> by lia.
      unfold repositioned. cbn [Note.element].
      unfold countInvariant in Hinv. rewrite Hinv, <- INR_IZR_INZ.
      reflexivity.
  - destruct Hrec as (Hn & Hc).
    intros c i n Hcv Hi. rewrite Hn in Hi. rewrite Hc in Hcv.
    by apply (Hal c i n).
Qed.

(** A first note on the empty wall sits on the slot 0. *)
Lemma generateNote_keeps_layout_witness :
  aligned (snd (generateNote offline 0 7%nat emptyWall)).
Proof.
  apply generateNote_keeps_layout.
  - intros c i n _ Hi. inversion Hi.
  - reflexivity.
Defined.

(** * Properties of the application *)

Lemma generateOne_fields (env : Env) (colorRandom : Q) (note : Elem)
    (a : App.t) :
  let a' := App.generateOne env colorRandom note a in
  App.isGenerating a' = App.isGenerating a
  ∧ App.generationInterval a' = App.generationInterval a
  ∧ App.generationSpeed a' = App.generationSpeed a
  ∧ App.toggleBtn a' = App.toggleBtn a
  ∧ App.intervals a' = App.intervals a
  ∧ App.generator a' = snd (generateNote env colorRandom note (App.generator a))
  ∧ (App.noteCountEl a = getCount (App.generator a) →
     App.noteCountEl a' = getCount (App.generator a')).
Proof.
  unfold App.generateOne.
  pose proof (generateNote_effect env colorRandom note (App.generator a)) as He.
  destruct (generateNote env colorRandom note (App.generator a)) as [[e |] g].
  - by repeat split.
  - destruct He as (_ & Hc). repeat split; try reflexivity.
    simpl. unfold getCount. intros ->. by rewrite Hc.
Qed.

Lemma generateOne_invariant (env : Env) (colorRandom : Q) (note : Elem)
    (a : App.t) :
  App.invariant a → App.invariant (App.generateOne env colorRandom note a).
Proof.
  intros (Hi & Hg & Hs & Hp & Hn & Hc).
  destruct (generateOne_fields env colorRandom note a)
    as (Eg & Ei & Es & Eb & Ev & Egen & En).
  unfold App.invariant. rewrite Eg, Ei, Es, Eb, Ev.
  split; [assumption |]. split; [assumption |]. split; [assumption |].
  split; [assumption |]. split; [by apply En |].
  rewrite Egen.
  by apply (perform_countInvariant (CallGenerateNote env colorRandom note)).
Qed.

Lemma not_generating_no_interval (a : App.t) :
  App.invariant a → App.isGenerating a = false →
  App.generationInterval a = None ∧ App.intervals a = ∅.
Proof.
  intros (Hi & Hg & _) Hf.
  destruct (App.generationInterval a) as [id |] eqn:Hid; [| by split].
  exfalso. assert (App.isGenerating a = true) by (by apply Hg). congruence.
Qed.

Lemma startGeneration_invariant (id : positive) (env : Env) (colorRandom : Q)
    (note : Elem) (a : App.t) :
  App.invariant a →
  App.invariant (App.startGeneration id env colorRandom note a).
Proof.
  intros Hinv. unfold App.startGeneration.
  destruct (App.isGenerating a) eqn:Hgen; [assumption |].
  destruct (not_generating_no_interval a Hinv Hgen) as (Hnone & Hempty).
  destruct Hinv as (Hi & Hg & Hs & Hp & Hn & Hc).
  set (a1 := App.mk _ true _ _ _ _ _).
  assert (Hinv1 : App.noteCountEl a1 = getCount (App.generator a1)
                  ∧ countInvariant (App.generator a1)) by (by split).
  destruct (generateOne_fields env colorRandom note a1)
    as (Eg & Ei & Es & Eb & Ev & Egen & En).
  unfold App.invariant. simpl. rewrite Ev, Es, Eb, Eg. simpl.
  rewrite Hempty, insert_empty.
  split; [reflexivity |]. split; [by split |].
  split.
  { split; [reflexivity | intros _].
    apply elem_of_union. left. by apply elem_of_singleton. }
  split.
  { split; [| discriminate]. intros Hin. exfalso.
    apply elem_of_union in Hin as [Hin | Hin].
    - apply elem_of_singleton in Hin. discriminate.
    - apply elem_of_difference in Hin as (_ & Hnot).
      apply Hnot. by apply elem_of_singleton. }
  split; [by apply En |].
  rewrite Egen.
  by apply (perform_countInvariant (CallGenerateNote env colorRandom note)).
Qed.

Lemma stopGeneration_invariant (a : App.t) :
  App.invariant a → App.invariant (App.stopGeneration a).
Proof.
  intros Hinv. unfold App.stopGeneration.
  destruct (App.isGenerating a) eqn:Hgen; [| assumption]. simpl.
  destruct Hinv as (Hi & Hg & Hs & Hp & Hn & Hc).
  assert (Hclasses :
    ("secondary"%string
       ∈ ({[ "primary"%string ]} ∪ (App.toggleBtn a ∖ {[ "secondary"%string ]}) : gset string)
     ↔ false = true)
    ∧ ("primary"%string
         ∈ ({[ "primary"%string ]} ∪ (App.toggleBtn a ∖ {[ "secondary"%string ]}) : gset string)
       ↔ false = false)).
  { split; split; try discriminate; try reflexivity.
    - intros Hin. exfalso. apply elem_of_union in Hin as [Hin | Hin].
      + apply elem_of_singleton in Hin. discriminate.
      + apply elem_of_difference in Hin as (_ & Hnot).
        apply Hnot. by apply elem_of_singleton.
    - intros _. apply elem_of_union. left. by apply elem_of_singleton. }
  destruct Hclasses as (Hs' & Hp').
  destruct (App.generationInterval a) as [id |] eqn:Hid;
    unfold App.invariant; simpl.
  - rewrite Hi, delete_singleton_eq.
    split; [reflexivity |]. split; [split; [discriminate | congruence] |].
    split; [exact Hs' |]. split; [exact Hp' |]. by split.
  - split; [assumption |]. split; [split; [discriminate | congruence] |].
    split; [exact Hs' |]. split; [exact Hp' |]. by split.
Qed.

Lemma speedInput_invariant (value : Z) (id : positive) (a : App.t) :
  App.invariant a → App.invariant (App.speedInput value id a).
Proof.
  intros Hinv. unfold App.speedInput.
  destruct (App.isGenerating a) eqn:Hgen.
  - destruct Hinv as (Hi & Hg & Hs & Hp & Hn & Hc).
    rewrite Hgen in Hs, Hp.
    unfold App.invariant. simpl.
    split.
    { destruct (App.generationInterval a) as [old |].
      - by rewrite Hi, delete_singleton_eq, insert_empty.
      - by rewrite Hi, insert_empty. }
    split; [by split |].
    split; [exact Hs |]. split; [exact Hp |]. by split.
  - destruct (not_generating_no_interval a Hinv Hgen) as (Hnone & Hempty).
    destruct Hinv as (Hi & Hg & Hs & Hp & Hn & Hc).
    rewrite Hgen in Hs, Hp.
    unfold App.invariant. simpl. rewrite Hnone, Hempty.
    split; [reflexivity |]. split; [split; [discriminate | congruence] |].
    split; [exact Hs |]. split; [exact Hp |]. by split.
Qed.

Lemma clearAllNotes_invariant (confirmed : bool) (a : App.t) :
  App.invariant a → App.invariant (App.clearAllNotes confirmed a).
Proof.
  intros Hinv. unfold App.clearAllNotes.
  destruct ((0 <? getCount (App.generator a))%Z && negb confirmed);
    [assumption |].
  destruct Hinv as (Hi & Hg & Hs & Hp & Hn & Hc).
  unfold clearAll. destruct (canvas (App.generator a)); simpl.
  - unfold App.invariant. simpl.
    split; [exact Hi |]. split; [exact Hg |]. split; [exact Hs |].
    split; [exact Hp |]. by split.
  - assert (App.set_generator (App.generator a) a = a) as -> by (by destruct a).
    unfold App.invariant.
    split; [exact Hi |]. split; [exact Hg |]. split; [exact Hs |].
    split; [exact Hp |]. by split.
Qed.

Lemma resized_invariant (a : App.t) :
  App.invariant a → App.invariant (App.resized a).
Proof.
  intros (Hi & Hg & Hs & Hp & Hn & Hc).
  unfold App.invariant, App.resized. simpl.
  split; [exact Hi |]. split; [exact Hg |]. split; [exact Hs |].
  split; [exact Hp |].
  destruct (repositionNotes_cases (App.generator a))
    as [(_ & ->) | [(_ & _ & ->) | (c & _ & _ & ->)]]; simpl;
    try (split; assumption).
  split; [exact Hn |].
  unfold countInvariant in *. simpl. by rewrite length_imap.
Qed.

Lemma handle_invariant (ev : App.Event) (a : App.t) :
  App.invariant a → App.invariant (App.handle ev a).
Proof.
  intros Hinv. destruct ev; simpl.
  - unfold App.toggleClick. destruct (App.isGenerating a).
    + by apply stopGeneration_invariant.
    + by apply startGeneration_invariant.
  - by apply speedInput_invariant.
  - unfold App.tick. destruct (App.intervals a !! id); [| assumption].
    by apply generateOne_invariant.
  - by apply clearAllNotes_invariant.
  - by apply resized_invariant.
Qed.

(** X19. Every event of the application keeps this: there is a live
    interval exactly while the application is generating, it is the only
    one, it is the one the field [generationInterval] names and its period
    is the current speed (so moving the slider never leaves two intervals
    running, and never leaves the old period in force); the start/pause
    button has the class [secondary] while generating and [primary] while
    paused; and the counter element shows the number of records. *)
Theorem app_invariant (ev : App.Event) (a : App.t) :
  App.invariant a →
  App.invariant (App.handle ev a)
  ∧ (size (App.intervals (App.handle ev a)) <= 1)%nat
  ∧ (∀ id period, App.intervals (App.handle ev a) !! id = Some period →
       App.isGenerating (App.handle ev a) = true
       ∧ period = App.generationSpeed (App.handle ev a))
  ∧ App.noteCountEl (App.handle ev a)
    = Z.of_nat (length (notes (App.generator (App.handle ev a)))).
Proof.
  intros Hinv. pose proof (handle_invariant ev a Hinv) as H'.
  split; [assumption |].
  destruct H' as (Hi & Hg & _ & _ & Hn & Hc).
  split; [| split].
  - rewrite Hi. destruct (App.generationInterval _).
    + rewrite map_size_singleton. lia.
    + rewrite map_size_empty. lia.
  - intros id period Hl. rewrite Hi in Hl.
    destruct (App.generationInterval _) as [id' |] eqn:Hid.
    + apply lookup_singleton_Some in Hl as (_ & <-).
      split; [| reflexivity]. apply Hg. congruence.
    + rewrite lookup_empty in Hl. discriminate.
  - rewrite Hn. exact Hc.
Qed.

(** The application just after [init], paused: the first click starts the
    generation. *)
Lemma app_invariant_witness :
  App.invariant (App.handle (App.ToggleClick 1 offline 0 7%nat) pausedApp).
Proof.
  apply app_invariant. unfold App.invariant, pausedApp. simpl.
  split; [reflexivity |]. split; [split; [discriminate | congruence] |].
  split.
  { split; [| discriminate]. intros Hin.
    apply elem_of_singleton in Hin. discriminate. }
  split; [split; [reflexivity | intros _; by apply elem_of_singleton] |].
  by split.
Defined.

(** X20. Pausing really pauses: after [stopGeneration] no interval is live,
    so no callback of an interval generates a note any more, whichever
    interval it belonged to. *)
Theorem pause_stops_generation (a : App.t) (id : positive) (env : Env)
    (colorRandom : Q) (note : Elem) :
  App.invariant a →
  App.isGenerating (App.stopGeneration a) = false
  ∧ App.intervals (App.stopGeneration a) = ∅
  ∧ App.tick id env colorRandom note (App.stopGeneration a)
    = App.stopGeneration a.
Proof.
  intros Hinv.
  pose proof (stopGeneration_invariant a Hinv) as Hinv'.
  assert (Hf : App.isGenerating (App.stopGeneration a) = false).
  { unfold App.stopGeneration.
    destruct (App.isGenerating a) eqn:Hgen; simpl; [| assumption].
    by destruct (App.generationInterval a). }
  destruct (not_generating_no_interval _ Hinv' Hf) as (_ & Hempty).
  split; [assumption |]. split; [assumption |].
  unfold App.tick. by rewrite Hempty, lookup_empty.
Qed.

(** The application started by a first click, then paused: the callback of
    the interval 1 does nothing. *)
Lemma pause_stops_generation_witness :
  App.tick 1 offline 0 8%nat
    (App.stopGeneration
       (App.handle (App.ToggleClick 1 offline 0 7%nat) pausedApp))
  = App.stopGeneration
      (App.handle (App.ToggleClick 1 offline 0 7%nat) pausedApp).
Proof.
  apply pause_stops_generation. apply handle_invariant.
  unfold App.invariant, pausedApp. simpl.
  split; [reflexivity |]. split; [split; [discriminate | congruence] |].
  split.
  { split; [| discriminate]. intros Hin.
    apply elem_of_singleton in Hin. discriminate. }
  split; [split; [reflexivity | intros _; by apply elem_of_singleton] |].
  by split.
Defined.

(** * Properties of the debug switch *)

Lemma savedDebugMode_toString (enabled : bool) (storage : gmap string string) :
  Debug.savedDebugMode (<["debugMode"%string := Debug.toString enabled]> storage)
  = enabled.
Proof.
  unfold Debug.savedDebugMode. rewrite lookup_insert_eq.
  destruct enabled.
  - by apply bool_decide_eq_true_2.
  - apply bool_decide_eq_false_2. discriminate.
Qed.

(** X21. The debug flag survives a reload: what [setDebugMode] stores is
    read back by [init] as the same flag, whatever the storage held, and the
    application, the generator and the button then agree on it. Toggling
    twice gives back the flag and the stored value of one [setDebugMode],
    and no other key of the storage is touched. *)
Theorem debug_mode_round_trip (enabled : bool) (d : Debug.t)
    (debugBtn : option bool) :
  Debug.savedDebugMode (Debug.localStorage (Debug.setDebugMode enabled d))
  = enabled
  ∧ (let d' := Debug.init debugBtn
                 (Debug.localStorage (Debug.setDebugMode enabled d)) in
     Debug.debugMode d' = enabled
     ∧ Debug.generatorDebugMode d' = Some enabled
     ∧ Debug.debugBtnActive d' = (λ _, enabled) <$> debugBtn)
  ∧ Debug.debugMode (Debug.toggleDebugMode (Debug.toggleDebugMode d))
    = Debug.debugMode d
  ∧ Debug.localStorage (Debug.toggleDebugMode (Debug.toggleDebugMode d))
    = Debug.localStorage (Debug.setDebugMode (Debug.debugMode d) d)
  ∧ (∀ key, key ≠ "debugMode"%string →
       Debug.localStorage (Debug.setDebugMode enabled d) !! key
       = Debug.localStorage d !! key).
Proof.
  split; [apply savedDebugMode_toString |].
  split.
  { unfold Debug.init. simpl. rewrite savedDebugMode_toString.
    by repeat split. }
  split; [simpl; apply negb_involutive |].
  split.
  { simpl. rewrite negb_involutive. apply insert_insert_eq. }
  intros key Hkey. simpl. by apply lookup_insert_ne.
Qed.

(** Debugging switched on over a storage that said it was off, then the
    page is loaded again with a debug button. *)
Lemma debug_mode_round_trip_witness :
  Debug.debugMode
    (Debug.init (Some false)
       (Debug.localStorage
          (Debug.setDebugMode true
             (Debug.mk false (Some false) (Some false)
                {[ "debugMode"%string := "false"%string ]}))))
  = true.
Proof.
  apply (debug_mode_round_trip true
           (Debug.mk false (Some false) (Some false)
              {[ "debugMode"%string := "false"%string ]})
           (Some false)).
Defined.

(** * Properties of dragging *)

Lemma clamp_bounds (x m : R) :
  (0 <= Rmax 0 (Rmin x m))%R
  ∧ ((0 <= m)%R → (Rmax 0 (Rmin x m) <= m)%R)
  ∧ ((m < 0)%R → Rmax 0 (Rmin x m) = 0%R)
  ∧ ((0 <= x <= m)%R → Rmax 0 (Rmin x m) = x).
Proof.
  unfold Rmax, Rmin.
  destruct (Rle_dec x m); destruct (Rle_dec 0 _); repeat split; intros; lra.
Qed.

Lemma setElement_same (e : Elem) (v : Drag.Element) (f : Elem → Drag.Element) :
  Drag.setElement e v f e = v.
Proof. unfold Drag.setElement. by rewrite decide_True. Qed.

Lemma setElement_other (e e' : Elem) (v : Drag.Element)
    (f : Elem → Drag.Element) :
  e' ≠ e → Drag.setElement e v f e' = f e'.
Proof. intros H. unfold Drag.setElement. by rewrite decide_False. Qed.

Lemma onDrag_dragging (e : Elem) (move : Drag.Pointer)
    (canvasRect : Drag.Corner) (w : Drag.t) (c : Canvas.t) :
  Drag.draggedElement (Drag.handler w) = Some e →
  Drag.isDragging (Drag.handler w) = true →
  canvas (Drag.generator w) = Some c →
  let w' := snd (Drag.onDrag move canvasRect w) in
  (0 <= Drag.left (Drag.elements w' e))%R
  ∧ (0 <= Drag.top (Drag.elements w' e))%R
  ∧ ((Drag.offsetWidth (Drag.elements w e) <= Canvas.width c)%R →
     (Drag.left (Drag.elements w' e)
      + Drag.offsetWidth (Drag.elements w e) <= Canvas.width c)%R)
  ∧ ((Drag.offsetHeight (Drag.elements w e) <= Canvas.height c)%R →
     (Drag.top (Drag.elements w' e)
      + Drag.offsetHeight (Drag.elements w e) <= Canvas.height c)%R)
  ∧ Drag.handler w' = Drag.handler w
  ∧ Drag.generator w' = Drag.generator w
  ∧ Drag.offsetWidth (Drag.elements w' e)
    = Drag.offsetWidth (Drag.elements w e)
  ∧ Drag.offsetHeight (Drag.elements w' e)
    = Drag.offsetHeight (Drag.elements w e).
Proof.
  intros He Hd Hc. unfold Drag.onDrag, Drag.updatePosition.
  rewrite He, Hd, Hc. cbn zeta.
  cbn [fst snd Drag.elements Drag.generator Drag.handler].
  rewrite setElement_same.
  cbn [Drag.left Drag.top Drag.offsetWidth Drag.offsetHeight].
  set (x := (Drag.clientX move - Drag.rectLeft canvasRect
             - Drag.offsetX (Drag.handler w))%R).
  set (y := (Drag.clientY move - Drag.rectTop canvasRect
             - Drag.offsetY (Drag.handler w))%R).
  destruct (clamp_bounds x
              (Canvas.width c - Drag.offsetWidth (Drag.elements w e)))
    as (Hx0 & Hx1 & _).
  destruct (clamp_bounds y
              (Canvas.height c - Drag.offsetHeight (Drag.elements w e)))
    as (Hy0 & Hy1 & _).
  split; [assumption |]. split; [assumption |].
  split; [intros H; specialize (Hx1 ltac:(lra)); lra |].
  split; [intros H; specialize (Hy1 ltac:(lra)); lra |].
  by repeat split.
Qed.

Lemma moves_keep_dragging (e : Elem) (canvasRect : Drag.Corner)
    (moves : list Drag.Pointer) (w : Drag.t) :
  Drag.draggedElement (Drag.handler w) = Some e →
  Drag.isDragging (Drag.handler w) = true →
  let w' := foldl (λ w move, snd (Drag.onDrag move canvasRect w)) w moves in
  Drag.handler w' = Drag.handler w
  ∧ Drag.generator w' = Drag.generator w
  ∧ Drag.offsetWidth (Drag.elements w' e) = Drag.offsetWidth (Drag.elements w e)
  ∧ Drag.offsetHeight (Drag.elements w' e)
    = Drag.offsetHeight (Drag.elements w e)
  ∧ (moves ≠ [] → ∀ c, canvas (Drag.generator w) = Some c →
       (0 <= Drag.left (Drag.elements w' e))%R
       ∧ (0 <= Drag.top (Drag.elements w' e))%R
       ∧ ((Drag.offsetWidth (Drag.elements w e) <= Canvas.width c)%R →
          (Drag.left (Drag.elements w' e)
           + Drag.offsetWidth (Drag.elements w e) <= Canvas.width c)%R)
       ∧ ((Drag.offsetHeight (Drag.elements w e) <= Canvas.height c)%R →
          (Drag.top (Drag.elements w' e)
           + Drag.offsetHeight (Drag.elements w e) <= Canvas.height c)%R)).
Proof.
  intros He Hd. induction moves as [| move moves IH] using rev_ind.
  - simpl. by repeat split.
  - rewrite foldl_app. simpl.
    set (w1 := foldl _ w moves) in *. simpl in IH.
    destruct IH as (Hh & Hg & Hw & Hhh & _).
    assert (He1 : Drag.draggedElement (Drag.handler w1) = Some e)
      by (by rewrite Hh).
    assert (Hd1 : Drag.isDragging (Drag.handler w1) = true)
      by (by rewrite Hh).
    destruct (canvas (Drag.generator w1)) as [c |] eqn:Hc1.
    + destruct (onDrag_dragging e move canvasRect w1 c He1 Hd1 Hc1)
        as (Hx0 & Hy0 & Hx1 & Hy1 & Hh' & Hg' & Hw' & Hhh').
      split; [congruence |]. split; [congruence |].
      split; [congruence |]. split; [congruence |].
      intros _ c' Hc'. rewrite <- Hg, Hc1 in Hc'. injection Hc' as <-.
      rewrite <- Hw, <- Hhh.
      split; [exact Hx0 |]. split; [exact Hy0 |]. split; assumption.
    + assert (Hnop : Drag.onDrag move canvasRect w1 = (Throw, w1)).
      { unfold Drag.onDrag, Drag.updatePosition. by rewrite He1, Hd1, Hc1. }
      rewrite Hnop. simpl.
      split; [assumption |]. split; [assumption |]. split; [assumption |].
      split; [assumption |].
      intros _ c' Hc'. rewrite <- Hg, Hc1 in Hc'. discriminate.
Qed.

(** X22. While a note is dragged, a pointer move puts it at the pointer
    (less the grab offset) when that keeps it inside the canvas, and
    otherwise at the nearest place inside: its left and top are never
    negative and, when the note is not larger than the canvas, it does not
    reach past the right or the bottom edge; a note wider than the canvas is
    held at the left edge. No other element moves, and the records of the
    generator are not touched before the drop. *)
Theorem dragged_note_stays_inside (e : Elem) (move : Drag.Pointer)
    (canvasRect : Drag.Corner) (w : Drag.t) (c : Canvas.t) :
  Drag.draggedElement (Drag.handler w) = Some e →
  Drag.isDragging (Drag.handler w) = true →
  canvas (Drag.generator w) = Some c →
  let w' := snd (Drag.onDrag move canvasRect w) in
  let el := Drag.elements w' e in
  let noteWidth := Drag.offsetWidth (Drag.elements w e) in
  let noteHeight := Drag.offsetHeight (Drag.elements w e) in
  let x := (Drag.clientX move - Drag.rectLeft canvasRect
            - Drag.offsetX (Drag.handler w))%R in
  let y := (Drag.clientY move - Drag.rectTop canvasRect
            - Drag.offsetY (Drag.handler w))%R in
  fst (Drag.onDrag move canvasRect w) = Return tt
  ∧ (0 <= Drag.left el)%R ∧ (0 <= Drag.top el)%R
  ∧ ((noteWidth <= Canvas.width c)%R →
     (Drag.left el + noteWidth <= Canvas.width c)%R)
  ∧ ((noteHeight <= Canvas.height c)%R →
     (Drag.top el + noteHeight <= Canvas.height c)%R)
  ∧ ((Canvas.width c < noteWidth)%R → Drag.left el = 0%R)
  ∧ ((0 <= x <= Canvas.width c - noteWidth)%R → Drag.left el = x)
  ∧ ((0 <= y <= Canvas.height c - noteHeight)%R → Drag.top el = y)
  ∧ (∀ e', e' ≠ e → Drag.elements w' e' = Drag.elements w e')
  ∧ Drag.generator w' = Drag.generator w
  ∧ Drag.handler w' = Drag.handler w.
Proof.
  intros He Hd Hc. unfold Drag.onDrag, Drag.updatePosition.
  rewrite He, Hd, Hc. cbn zeta. cbn [fst snd Drag.elements Drag.generator Drag.handler].
  rewrite setElement_same. cbn [Drag.left Drag.top].
  set (x := (Drag.clientX move - Drag.rectLeft canvasRect
             - Drag.offsetX (Drag.handler w))%R).
  set (y := (Drag.clientY move - Drag.rectTop canvasRect
             - Drag.offsetY (Drag.handler w))%R).
  destruct (clamp_bounds x
              (Canvas.width c - Drag.offsetWidth (Drag.elements w e)))
    as (Hx0 & Hx1 & Hx2 & Hx3).
  destruct (clamp_bounds y
              (Canvas.height c - Drag.offsetHeight (Drag.elements w e)))
    as (Hy0 & Hy1 & Hy2 & Hy3).
  split; [reflexivity |]. split; [assumption |]. split; [assumption |].
  split; [intros H; specialize (Hx1 ltac:(lra)); lra |].
  split; [intros H; specialize (Hy1 ltac:(lra)); lra |].
  split; [intros H; apply Hx2; lra |].
  split; [assumption |]. split; [assumption |].
  split; [intros e' Hne; by apply setElement_other |].
  by split.
Qed.

(** One move of a grabbed note of 100 by 100 pixels on the wide surface,
    the pointer far to the left of the canvas: the note is held at the left
    edge. *)
Lemma dragged_note_stays_inside_witness :
  (0 <= Drag.left
          (Drag.elements
             (snd (Drag.onDrag (Drag.mkPointer (-500) 300)
                     (Drag.mkCorner 0 0) grabbedWorld)) 10%nat))%R.
Proof.
  apply (dragged_note_stays_inside 10%nat (Drag.mkPointer (-500) 300)
           (Drag.mkCorner 0 0) grabbedWorld wideCanvas);
    reflexivity.
Defined.

Lemma findIndex_first {A : Type} (p : A → bool) (l : list A) (i : nat) (a : A) :
  l !! i = Some a → p a = true →
  (∀ j b, (j < i)%nat → l !! j = Some b → p b = false) →
  findIndex p l = Some i.
Proof.
  intros Hi Hp Hmin.
  destruct (findIndex p l) as [k |] eqn:Hf.
  - destruct (findIndex_Some _ _ _ Hf) as (b & Hb & Hpb & Hminb).
    destruct (Nat.lt_trichotomy i k) as [Hlt | [-> | Hgt]]; [| reflexivity |].
    + specialize (Hminb i a Hlt Hi). congruence.
    + specialize (Hmin k b Hgt Hb). congruence.
  - exfalso. rewrite findIndex_None in Hf.
    assert (p a = false) by (apply Hf; eapply list_elem_of_lookup_2; eauto).
    congruence.
Qed.

Lemma updateNotePosition_at (e : Elem) (x y : R) (g : NoteGenerator)
    (i : nat) (n : Note.t) :
  notes g !! i = Some n → Note.element n = e →
  (∀ j m, (j < i)%nat → notes g !! j = Some m → Note.element m ≠ e) →
  notes (updateNotePosition e x y g) = <[i := Note.mk x y e]> (notes g).
Proof.
  intros Hi He Hmin. unfold updateNotePosition.
  rewrite (findIndex_first (isElement e) (notes g) i n Hi).
  - simpl. apply list_eq. intros j. destruct (decide (j = i)) as [-> | Hne].
    + rewrite list_lookup_alter_eq, Hi. simpl.
      rewrite list_lookup_insert_eq by (eapply lookup_lt_Some; eauto).
      by rewrite He.
    + rewrite list_lookup_alter_ne by done.
      by rewrite list_lookup_insert_ne.
  - by apply isElement_true.
  - intros j m Hj Hm. apply isElement_false. eauto.
Qed.

(** X23. A whole drag of a recorded note (grab, any pointer moves, drop)
    ends with the handler idle again, the note no longer marked as dragged,
    and the record of the note holding the place where the element was
    dropped; every other record and the counter are as before. If the
    pointer moved at all, that place is inside the canvas (not left of or
    above it, and not past its right or bottom edge when the note fits). After
    the drop a further release or pointer move changes nothing: the note
    does not follow the pointer any more. *)
Theorem drop_is_recorded (down : Drag.Pointer) (rect : Drag.Corner) (e : Elem)
    (canvasRect : Drag.Corner) (moves : list Drag.Pointer) (w : Drag.t)
    (c : Canvas.t) (i : nat) (n : Note.t) :
  canvas (Drag.generator w) = Some c →
  notes (Drag.generator w) !! i = Some n → Note.element n = e →
  (∀ j m, (j < i)%nat → notes (Drag.generator w) !! j = Some m →
          Note.element m ≠ e) →
  let w' := Drag.gesture down rect e canvasRect moves w in
  let el := Drag.elements w' e in
  Drag.draggedElement (Drag.handler w') = None
  ∧ Drag.isDragging (Drag.handler w') = false
  ∧ Drag.dragging el = false ∧ Drag.zIndex el = 1%Z
  ∧ notes (Drag.generator w')
    = <[i := Note.mk (Drag.left el) (Drag.top el) e]> (notes (Drag.generator w))
  ∧ noteCount (Drag.generator w') = noteCount (Drag.generator w)
  ∧ (moves ≠ [] →
     (0 <= Drag.left el)%R ∧ (0 <= Drag.top el)%R
     ∧ ((Drag.offsetWidth (Drag.elements w e) <= Canvas.width c)%R →
        (Drag.left el + Drag.offsetWidth (Drag.elements w e)
         <= Canvas.width c)%R)
     ∧ ((Drag.offsetHeight (Drag.elements w e) <= Canvas.height c)%R →
        (Drag.top el + Drag.offsetHeight (Drag.elements w e)
         <= Canvas.height c)%R))
  ∧ Drag.endDrag w' = w'
  ∧ (∀ move, Drag.onDrag move canvasRect w' = (Return tt, w')).
Proof.
  intros Hc Hi He Hmin w' el. subst w' el. unfold Drag.gesture.
  set (w1 := Drag.startDrag down rect e w).
  assert (He1 : Drag.draggedElement (Drag.handler w1) = Some e) by reflexivity.
  assert (Hd1 : Drag.isDragging (Drag.handler w1) = true) by reflexivity.
  assert (Hw1 : Drag.offsetWidth (Drag.elements w1 e)
                = Drag.offsetWidth (Drag.elements w e)
                ∧ Drag.offsetHeight (Drag.elements w1 e)
                  = Drag.offsetHeight (Drag.elements w e)).
  { unfold w1, Drag.startDrag. cbn [Drag.elements].
    by rewrite setElement_same. }
  destruct Hw1 as (Hw1 & Hh1).
  destruct (moves_keep_dragging e canvasRect moves w1 He1 Hd1)
    as (Hh & Hg & Hw & Hhh & Hin).
  set (w2 := foldl _ w1 moves) in *.
  unfold Drag.endDrag. rewrite Hh, He1, Hd1. cbn zeta.
  cbn [Drag.handler Drag.generator Drag.elements Drag.draggedElement
       Drag.isDragging].
  rewrite setElement_same.
  cbn [Drag.left Drag.top Drag.dragging Drag.zIndex].
  rewrite Hg. change (Drag.generator w1) with (Drag.generator w).
  split; [reflexivity |]. split; [reflexivity |].
  split; [reflexivity |]. split; [reflexivity |].
  split; [by apply (updateNotePosition_at e _ _ _ i n) |].
  split.
  { unfold updateNotePosition. by destruct (findIndex _ _). }
  split.
  { intros Hne. specialize (Hin Hne c Hc). rewrite Hw1, Hh1 in Hin.
    exact Hin. }
  split; reflexivity.
Qed.

(** The note of the element 10, first record of the two, grabbed at (30, 40)
    of the viewport, moved to (700, 500) and dropped. *)
Lemma drop_is_recorded_witness :
  noteCount
    (Drag.generator
       (Drag.gesture (Drag.mkPointer 30 40) (Drag.mkCorner 1 2) 10%nat
          (Drag.mkCorner 0 0) [Drag.mkPointer 700 500] restingWorld))
  = noteCount (Drag.generator restingWorld).
Proof.
  apply (drop_is_recorded (Drag.mkPointer 30 40) (Drag.mkCorner 1 2) 10%nat
           (Drag.mkCorner 0 0) [Drag.mkPointer 700 500] restingWorld
           wideCanvas 0%nat (Note.mk 1 2 10%nat)).
  - reflexivity.
  - reflexivity.
  - reflexivity.
  - intros j m Hj. lia.
Defined.

(** * The tilt effect *)


